(** * H-2 back wages by employer: the notebook's pipeline and its properties

    A shallow embedding of [notebooks/top-employer-back-wages.ipynb].
    The notebook is a straight-line pandas script: each cell binds one
    data frame, and one cell asserts a data contract.  Data frames are
    lists of records (row order is the frame's order), a nullable column
    is an [option], and the cells are functions named after the variable
    they bind.  The one failing cell is an [assert]; the whole script is
    therefore a computation in a small error monad. *)

From Stdlib Require Import List String Ascii Bool ZArith QArith Lia.
From Stdlib Require Import Orders Sorting.Mergesort Sorting.Sorted Sorting.Permutation.
Import ListNotations.

Open Scope string_scope.
Open Scope Z_scope.

(** ** The three loaded tables *)

(** Modelled from the spec: [utils/loaders.py], which reads the three
    tables, is not part of the sources.  The column types follow the
    spec's external interface: case identifiers and years are integers,
    codes and descriptions are strings, the back-wage amount is a
    nullable decimal (an exact rational here, [None] for a null), and an
    employer's identifier and legal name may be missing. *)
Module Case.
Record t := mk { CASE_ID : Z; DATE_CONCLUDED_YEAR : Z }.
End Case.

Module Employer.
Record t := mk
  { CASE_ID : Z;
    employer_id : option string;
    ER_LEGAL_NAME : option string }.
End Employer.

Module Violation.
Record t := mk
  { CASE_ID : Z;
    ACT_ID : string;
    violation_found : bool;
    ER_EE_VIOL : string;
    VIOLATION_DESC : string;
    AMT_BW_ASSESSED : option Q }.
End Violation.

(** A row of [h2_employee_violations]: a violation with the two employer
    columns the join attached (both null on a join miss). *)
Module Row.
Record t := mk
  { violation : Violation.t;
    employer_id : option string;
    ER_LEGAL_NAME : option string }.
End Row.

(** A row of [employer_aggregates]; [employer_id] is the index, and
    [h2_backwages] is a float column, [None] standing for NaN. *)
Module Agg.
Record t := mk
  { employer_id : string;
    h2_backwages : option Q;
    names : string }.
End Agg.

(** ** Errors *)

(** [assert(e)] with no message raises [AssertionError] with empty
    [args]. *)
Inductive exn : Type :=
| AssertionError (args : list string).

Definition result (A : Type) : Type := (exn + A)%type.

Definition ret {A} (a : A) : result A := inr a.

Definition bind {A B} (m : result A) (k : A -> result B) : result B :=
  match m with
  | inl e => inl e
  | inr a => k a
  end.

Notation "x <- m ;; k" := (bind m (fun x => k))
  (at level 61, m at next level, right associativity).
Notation "m ;;; k" := (bind m (fun _ => k))
  (at level 61, right associativity).

Definition py_assert (b : bool) : result unit :=
  if b then ret tt else inl (AssertionError []).

(** ** Orders used by the two sorts *)

(** Python compares [str] values code point by code point; on the bytes
    of a UTF-8 string this is [String.leb]. *)
Module StringOrder <: TotalLeBool.
Definition t := string.
Definition leb := String.leb.
Definition leb_total : forall a1 a2, leb a1 a2 = true \/ leb a2 a1 = true :=
  String.leb_total.
End StringOrder.

Module StringSort := Sort StringOrder.

(** [sort("h2_backwages", ascending=False)]: larger totals first, a
    null total last. *)
Definition bw_leb (a b : Agg.t) : bool :=
  match Agg.h2_backwages b, Agg.h2_backwages a with
  | None, _ => true
  | Some _, None => false
  | Some y, Some x => Qle_bool y x
  end.

Lemma bw_leb_total (a b : Agg.t) : bw_leb a b = true \/ bw_leb b a = true.
Proof.
  unfold bw_leb.
  destruct (Agg.h2_backwages a) as [x |], (Agg.h2_backwages b) as [y |]; auto.
  destruct (Qlt_le_dec x y) as [H | H].
  - right. apply Qle_bool_iff. apply Qlt_le_weak. exact H.
  - left. apply Qle_bool_iff. exact H.
Qed.

Module BackwagesDesc <: TotalLeBool.
Definition t := Agg.t.
Definition leb := bw_leb.
Definition leb_total : forall a1 a2, leb a1 a2 = true \/ leb a2 a1 = true :=
  bw_leb_total.
End BackwagesDesc.

Module BackwagesSort := Sort BackwagesDesc.

(** ** The pandas and Python primitives the notebook calls *)

(** [Series.isin(values)] on a string column: exact equality. *)
Definition isin (x : string) (values : list string) : bool :=
  existsb (String.eqb x) values.

Definition isinZ (x : Z) (values : list Z) : bool :=
  existsb (Z.eqb x) values.

(** [Series.fillna("")]. *)
Definition fillna (s : option string) : string :=
  match s with
  | Some x => x
  | None => ""
  end.

(** The non-null entries of a column, in order. *)
Fixpoint dropna {A} (l : list (option A)) : list A :=
  match l with
  | [] => []
  | Some a :: tl => a :: dropna tl
  | None :: tl => dropna tl
  end.

(** [set(xs)] of strings: the distinct elements.  Python fixes no
    iteration order for a set; the notebook only sorts a set or takes
    the length of one. *)
Definition py_set (xs : list string) : list string := nodup string_dec xs.

(** [set(a) - set(b)]. *)
Definition set_difference (a b : list string) : list string :=
  filter (fun x => negb (isin x b)) (py_set a).

(** [sorted] on strings. *)
Definition sorted (xs : list string) : list string := StringSort.sort xs.

(** [sep.join(strings)] is [String.concat sep strings]. *)

(** The non-null entries of a column, accumulated from zero in row
    order. *)
Definition exact_sum (xs : list (option Q)) : Q :=
  fold_left Qplus (dropna xs) 0%Q.

(** [SeriesGroupBy.sum()] on one group, in the pandas releases that
    have [DataFrame.sort], which cell 16 calls: nulls are skipped and the
    rest is accumulated; a group without any non-null amount has a null
    total. *)
Definition sum (xs : list (option Q)) : option Q :=
  match dropna xs with
  | [] => None
  | _ :: _ => Some (exact_sum xs)
  end.

(** [column >= value] on a float column: a null compares false. *)
Definition series_ge (x : option Q) (value : Q) : bool :=
  match x with
  | Some q => Qle_bool value q
  | None => false
  end.

(** [Index.is_unique]. *)
Fixpoint is_unique (keys : list Z) : bool :=
  match keys with
  | [] => true
  | k :: tl => negb (isinZ k tl) && is_unique tl
  end.

(** [left.set_index("CASE_ID").join(right)]: a left join on the case
    identifier.  Every left row is kept; it is paired with each right
    row of the same case, in the right frame's order, or with nulls when
    there is none. *)
Definition matches (right : list Employer.t) (v : Violation.t) : list Employer.t :=
  filter (fun e => Employer.CASE_ID e =? Violation.CASE_ID v) right.

Definition join_row (right : list Employer.t) (v : Violation.t) : list Row.t :=
  match matches right v with
  | [] => [Row.mk v None None]
  | es => map (fun e => Row.mk v (Employer.employer_id e) (Employer.ER_LEGAL_NAME e)) es
  end.

(** The order in which the join lists the left rows.  When both
    indexes are unique it is the left frame's order.  When a key is
    repeated in either index, pandas sorts the result by key; rows of
    the same key stay in frame order. *)
Fixpoint insert_by_case (v : Violation.t) (l : list Violation.t) : list Violation.t :=
  match l with
  | [] => [v]
  | w :: tl =>
      if Violation.CASE_ID v <=? Violation.CASE_ID w
      then v :: w :: tl
      else w :: insert_by_case v tl
  end.

Definition sort_by_case (l : list Violation.t) : list Violation.t :=
  fold_right insert_by_case [] l.

Definition join_order (left : list Violation.t) (right : list Employer.t) :
  list Violation.t :=
  if is_unique (map Violation.CASE_ID left) && is_unique (map Employer.CASE_ID right)
  then left
  else sort_by_case left.

Definition join (left : list Violation.t) (right : list Employer.t) : list Row.t :=
  flat_map (join_row right) (join_order left right).

(** [groupby("employer_id")]: rows with a null key belong to no group;
    the groups come in sorted key order, each with its rows in frame
    order. *)
Definition has_key (k : string) (r : Row.t) : bool :=
  match Row.employer_id r with
  | Some k' => String.eqb k' k
  | None => false
  end.

Definition group_keys (rows : list Row.t) : list string :=
  sorted (py_set (dropna (map Row.employer_id rows))).

Definition get_group (rows : list Row.t) (k : string) : list Row.t :=
  filter (has_key k) rows.

Definition groupby_employer_id (rows : list Row.t) : list (string * list Row.t) :=
  map (fun k => (k, get_group rows k)) (group_keys rows).

(** ** The notebook's cells *)

(** Cell 4. *)
Definition cases (_cases : list Case.t) : list Case.t :=
  filter (fun c => (2010 <=? Case.DATE_CONCLUDED_YEAR c) &&
                   (Case.DATE_CONCLUDED_YEAR c <=? 2014)) _cases.

(** Cell 5: the employers frame indexed by case, two columns kept. *)
Definition employer_basics (_employers : list Employer.t) : list Employer.t :=
  _employers.

(** Cell 8: the boolean mask, then the join. *)
Definition h2_mask (cases : list Case.t) (v : Violation.t) : bool :=
  isin (Violation.ACT_ID v) ["H2A"; "H2B"] &&
  isinZ (Violation.CASE_ID v) (map Case.CASE_ID cases) &&
  Bool.eqb (Violation.violation_found v) true &&
  String.eqb (Violation.ER_EE_VIOL v) "E".

Definition h2_employee_violations
  (cases : list Case.t) (employer_basics : list Employer.t)
  (violations : list Violation.t) : list Row.t :=
  join (filter (h2_mask cases) violations) employer_basics.

(** Cell 9. *)
Definition non_guestworker_descs : list string :=
  [ "17 Preferential treatment given to H-2A workers";
    "02 Unlawful rejection of US workers (2008 & 2010 Rules)";
    "Requirement to Hire U.S. Workers - ER failed to properly hire or rehire U.S. workers";
    "Layoff- ER improperly laid off similarly employed U.S. workers within 120 days of date of need, unless employee refused or was lawfully rejected";
    "Job Opportunity - (U.S. workers) - ER failed to offer U.S. workers bona fide, full-time temp. position due to inequitable qualification requirements";
    "Terms and Working Conditions for U.S. Workers - ER failed to offer terms and working conditions as required" ].

Definition VIOLATION_DESC (r : Row.t) : string :=
  Violation.VIOLATION_DESC (Row.violation r).

Definition AMT_BW_ASSESSED (r : Row.t) : option Q :=
  Violation.AMT_BW_ASSESSED (Row.violation r).

(** Cell 10: the entries of the list that no row carries, and the
    assertion that there is none. *)
Definition missing_descs (descs : list string) (rows : list Row.t) : list string :=
  set_difference descs (map VIOLATION_DESC rows).

Definition assert_descs_present (descs : list string) (rows : list Row.t) : result unit :=
  py_assert (Nat.eqb (List.length (missing_descs descs rows)) 0).

(** Cell 11. *)
Definition h2_guestworker_violations (descs : list string) (rows : list Row.t) : list Row.t :=
  filter (fun r => negb (isin (VIOLATION_DESC r) descs)) rows.

(** Cell 12. *)
Definition join_unique_strings (series : list (option string)) : string :=
  let strings := sorted (py_set (map fillna series)) in
  String.concat " | " strings.

(** Cell 13. *)
Definition by_employer (rows : list Row.t) : list (string * list Row.t) :=
  groupby_employer_id rows.

(** Cell 15: both columns are indexed by the group keys. *)
Definition employer_aggregates (groups : list (string * list Row.t)) : list Agg.t :=
  map (fun g => Agg.mk (fst g)
                       (sum (map AMT_BW_ASSESSED (snd g)))
                       (join_unique_strings (map Row.ER_LEGAL_NAME (snd g))))
      groups.

(** Cell 16.  pandas does not fix the relative order of equal totals;
    the merge sort used here is one admissible choice. *)
Definition top_total_h2_backwages (aggs : list Agg.t) : list Agg.t :=
  BackwagesSort.sort
    (filter (fun a => series_ge (Agg.h2_backwages a) 100000) aggs).

(** The aggregates as a function of a list of joined rows (cells 11 to
    15), and the whole notebook up to the table it saves, for a given
    exclusion list and for the notebook's own. *)
Definition aggregates_of (descs : list string) (rows : list Row.t) : list Agg.t :=
  employer_aggregates (by_employer (h2_guestworker_violations descs rows)).

Definition run (descs : list string)
  (_cases : list Case.t) (_employers : list Employer.t)
  (violations : list Violation.t) : result (list Agg.t) :=
  let rows := h2_employee_violations (cases _cases) (employer_basics _employers) violations in
  assert_descs_present descs rows ;;;
  ret (top_total_h2_backwages (aggregates_of descs rows)).

Definition notebook := run non_guestworker_descs.

(** ** Definitions used to state the properties *)

(** The four conditions of the filter stage, written on the raw case
    table: target category, a case concluded in 2010..2014, a violation
    found, an employee record. *)
Definition in_window (c : Case.t) : Prop :=
  2010 <= Case.DATE_CONCLUDED_YEAR c <= 2014.

Definition passes_filter (_cases : list Case.t) (v : Violation.t) : Prop :=
  (Violation.ACT_ID v = "H2A" \/ Violation.ACT_ID v = "H2B") /\
  (exists c, In c _cases /\ in_window c /\ Case.CASE_ID c = Violation.CASE_ID v) /\
  Violation.violation_found v = true /\
  Violation.ER_EE_VIOL v = "E".

Definition passes_filterb (_cases : list Case.t) (v : Violation.t) : bool :=
  (String.eqb (Violation.ACT_ID v) "H2A" || String.eqb (Violation.ACT_ID v) "H2B") &&
  existsb (fun c => (2010 <=? Case.DATE_CONCLUDED_YEAR c) &&
                    (Case.DATE_CONCLUDED_YEAR c <=? 2014) &&
                    (Case.CASE_ID c =? Violation.CASE_ID v)) _cases &&
  Violation.violation_found v &&
  String.eqb (Violation.ER_EE_VIOL v) "E".

(** The employer identifier a violation resolves to: that of the
    employer record of its case, if there is one and it has one. *)
Definition resolve (_employers : list Employer.t) (v : Violation.t) : option string :=
  match find (fun e => Employer.CASE_ID e =? Violation.CASE_ID v) _employers with
  | Some e => Employer.employer_id e
  | None => None
  end.

Definition resolves_to (_employers : list Employer.t) (k : string) (v : Violation.t) : bool :=
  match resolve _employers v with
  | Some k' => String.eqb k' k
  | None => false
  end.

(** The naive recomputation of one employer's total, straight from the
    input violations: keep those that pass the filter, are not excluded
    and resolve to the employer, and add their amounts. *)
Definition naive_backwages (descs : list string)
  (_cases : list Case.t) (_employers : list Employer.t)
  (violations : list Violation.t) (k : string) : Q :=
  exact_sum (map Violation.AMT_BW_ASSESSED
         (filter (fun v => passes_filterb _cases v &&
                           negb (isin (Violation.VIOLATION_DESC v) descs) &&
                           resolves_to _employers k v)
                 violations)).


(** Whether an exception names an entry: one of its arguments contains
    the entry as a substring. *)
Fixpoint contains (needle hay : string) : bool :=
  String.prefix needle hay ||
  match hay with
  | EmptyString => false
  | String _ tl => contains needle tl
  end.

Definition names_entry (e : exn) (d : string) : bool :=
  match e with
  | AssertionError args => existsb (contains d) args
  end.

(** The rows of one employer among the rows that survive the
    exclusion. *)
Definition employer_rows (descs : list string) (rows : list Row.t) (k : string) : list Row.t :=
  get_group (h2_guestworker_violations descs rows) k.

Definition str_lt (a b : string) : Prop := String.ltb a b = true.

(** A total with a null read as zero. *)
Definition total_or_zero (x : option Q) : Q :=
  match x with
  | Some q => q
  | None => 0%Q
  end.

(** Both totals are numbers and the first is at least the second. *)
Definition bw_ge (a b : Agg.t) : Prop :=
  exists x y,
    Agg.h2_backwages a = Some x /\ Agg.h2_backwages b = Some y /\ (y <= x)%Q.





(** The error contract as the spec words it: whenever the run raises,
    the exception names every missing entry. *)
Definition error_names_missing_entries : Prop :=
  forall descs _cases _employers violations e,
    run descs _cases _employers violations = inl e ->
    forall d,
      In d (missing_descs descs
              (h2_employee_violations (cases _cases) (employer_basics _employers) violations)) ->
      names_entry e d = true.

(** The joined row of a violation when its case has at most one employer
    record. *)
Definition row_of (right : list Employer.t) (v : Violation.t) : Row.t :=
  match find (fun e => Employer.CASE_ID e =? Violation.CASE_ID v) right with
  | Some e => Row.mk v (Employer.employer_id e) (Employer.ER_LEGAL_NAME e)
  | None => Row.mk v None None
  end.

(** ** A small data set

    Five cases, one of them concluded in 2009; employer ["12-3456789"]
    under two spellings, employer ["98-7654321"] without a legal name, no
    employer record for case 4. *)
Definition rate := "05 Failed to pay proper rate".

Definition ex_descs : list string :=
  ["02 Unlawful rejection of US workers (2008 & 2010 Rules)"].

Definition ex_cases : list Case.t :=
  [ Case.mk 1 2012; Case.mk 2 2014; Case.mk 3 2013; Case.mk 4 2010; Case.mk 5 2009 ].

Definition ex_employers : list Employer.t :=
  [ Employer.mk 1 (Some "12-3456789") (Some "Acme, Inc.");
    Employer.mk 2 (Some "12-3456789") (Some "Acme Inc.");
    Employer.mk 3 (Some "98-7654321") None;
    Employer.mk 5 (Some "55-5555555") (Some "Old Corp") ].

Definition ex_miss : Violation.t :=
  Violation.mk 4 "H2A" true "E" rate (Some 999%Q).

Definition ex_head : list Violation.t :=
  [ Violation.mk 1 "H2A" true "E" rate (Some 60000.50%Q);
    Violation.mk 2 "H2B" true "E" rate (Some 40000%Q);
    Violation.mk 2 "H2A" true "E" "09 Illegal charges for housing" None;
    Violation.mk 3 "H2A" true "E" rate (Some 250000%Q) ].

Definition ex_tail : list Violation.t :=
  [ Violation.mk 1 "H2A" true "R" rate (Some 77%Q);
    Violation.mk 5 "H2A" true "E" rate (Some 88%Q);
    Violation.mk 1 "FLSA" true "E" rate (Some 5%Q);
    Violation.mk 1 "H2A" false "E" rate (Some 6%Q);
    Violation.mk 1 "H2A" true "E"
      "02 Unlawful rejection of US workers (2008 & 2010 Rules)" (Some 3000%Q) ].

Definition ex_violations : list Violation.t :=
  (ex_head ++ ex_miss :: ex_tail)%list.

Definition ex_rows : list Row.t :=
  h2_employee_violations (cases ex_cases) (employer_basics ex_employers) ex_violations.

Definition ex_acme : Agg.t :=
  Agg.mk "12-3456789" (Some 100000.50%Q) "Acme Inc. | Acme, Inc.".

Definition ex_noname : Agg.t :=
  Agg.mk "98-7654321" (Some 250000%Q) "".

(** ** The detail cell *)

(** [column == value] on a nullable string column: a null is not equal
    to any string. *)
Definition series_eq (x : option string) (value : string) : bool :=
  match x with
  | Some s => String.eqb s value
  | None => false
  end.

(** Cell 21, first statement: the surviving rows of one employer. *)
Definition peri_violations (guest : list Row.t) : list Row.t :=
  filter (fun r => series_eq (Row.employer_id r) "88-0175412") guest.

(** The key of [groupby(["CASE_ID", "ACT_ID", "VIOLATION_DESC"])]. *)
Definition detail_key : Type := (Z * string * string)%type.

Definition key_of (r : Row.t) : detail_key :=
  (Violation.CASE_ID (Row.violation r),
   Violation.ACT_ID (Row.violation r),
   Violation.VIOLATION_DESC (Row.violation r)).

Definition key_eqb (a b : detail_key) : bool :=
  let '(c1, a1, d1) := a in
  let '(c2, a2, d2) := b in
  (c1 =? c2) && String.eqb a1 a2 && String.eqb d1 d2.

Definition key_dec (a b : detail_key) : {a = b} + {a <> b}.
Proof.
  decide equality; [apply string_dec | decide equality; [apply string_dec | apply Z.eq_dec]].
Defined.

(** Group keys of several columns are ordered column by column. *)
Definition key_leb (a b : detail_key) : bool :=
  let '(c1, a1, d1) := a in
  let '(c2, a2, d2) := b in
  match c1 ?= c2 with
  | Lt => true
  | Gt => false
  | Eq =>
      match String.compare a1 a2 with
      | Lt => true
      | Gt => false
      | Eq => String.leb d1 d2
      end
  end.

Lemma key_leb_total (a b : detail_key) : key_leb a b = true \/ key_leb b a = true.
Proof.
  destruct a as [[c1 a1] d1], b as [[c2 a2] d2]. unfold key_leb.
  rewrite (Z.compare_antisym c1 c2), (String.compare_antisym a2 a1).
  destruct (c1 ?= c2); simpl; auto.
  destruct (String.compare a1 a2); simpl; auto.
  apply String.leb_total.
Qed.

Module DetailOrder <: TotalLeBool.
Definition t := detail_key.
Definition leb := key_leb.
Definition leb_total : forall a1 a2, leb a1 a2 = true \/ leb a2 a1 = true :=
  key_leb_total.
End DetailOrder.

Module DetailSort := Sort DetailOrder.

(** Cell 21, second statement: [groupby([...]).size()], one count per
    observed key, in key order. *)
Definition detail_keys (rows : list Row.t) : list detail_key :=
  DetailSort.sort (nodup key_dec (map key_of rows)).

Definition size_by_case_act_desc (rows : list Row.t) : list (detail_key * nat) :=
  map (fun k => (k, List.length (filter (fun r => key_eqb (key_of r) k) rows)))
      (detail_keys rows).

(** ** Further definitions used to state properties *)

(** The sum of a column of totals, nulls skipped. *)
Definition grand_total (aggs : list Agg.t) : Q :=
  exact_sum (map Agg.h2_backwages aggs).

Definition has_employer (r : Row.t) : bool :=
  match Row.employer_id r with
  | Some _ => true
  | None => false
  end.

(** The entries of a name column that are neither null nor empty. *)
Definition named (series : list (option string)) : list (option string) :=
  filter (fun x => negb (String.eqb (fillna x) "")) series.

(** Two violations that do not pass the filter, and two name columns
    with the same spellings. *)
Definition ex_unqualified : list Violation.t :=
  [ Violation.mk 1 "H2A" true "R" rate (Some 77%Q);
    Violation.mk 5 "H2A" true "E" rate (Some 88%Q) ].

Definition ex_names : list (option string) :=
  [Some "Acme, Inc."; None; Some "Acme Inc."; Some "Acme, Inc."].

Definition ex_names' : list (option string) :=
  [Some "Acme Inc."; Some ""; Some "Acme, Inc."].


(** ** Membership tests *)

Lemma isin_In (x : string) (l : list string) : isin x l = true <-> In x l.
Proof.
  unfold isin. rewrite existsb_exists. split.
  - intros [y [Hy Heq]]. apply String.eqb_eq in Heq. subst y. exact Hy.
  - intro H. exists x. split; [exact H | apply String.eqb_refl].
Qed.

Lemma isin_false (x : string) (l : list string) : isin x l = false <-> ~ In x l.
Proof.
  rewrite <- isin_In. destruct (isin x l); split; intro H; congruence.
Qed.

Lemma isinZ_In (x : Z) (l : list Z) : isinZ x l = true <-> In x l.
Proof.
  unfold isinZ. rewrite existsb_exists. split.
  - intros [y [Hy Heq]]. apply Z.eqb_eq in Heq. subst y. exact Hy.
  - intro H. exists x. split; [exact H | apply Z.eqb_refl].
Qed.

Lemma in_py_set (x : string) (l : list string) : In x (py_set l) <-> In x l.
Proof. apply nodup_In. Qed.

Lemma in_set_difference (x : string) (a b : list string) :
  In x (set_difference a b) <-> In x a /\ ~ In x b.
Proof.
  unfold set_difference. rewrite filter_In, in_py_set, negb_true_iff, isin_false.
  reflexivity.
Qed.

Lemma in_dropna {A} (x : A) (l : list (option A)) : In x (dropna l) <-> In (Some x) l.
Proof.
  induction l as [| [a |] l IH]; simpl.
  - reflexivity.
  - rewrite IH. split; intros [H | H]; auto; left; congruence.
  - rewrite IH. split; [auto | intros [H | H]; [discriminate | exact H]].
Qed.

(** ** The filter stage *)

Lemma cases_In (_cases : list Case.t) (c : Case.t) :
  In c (cases _cases) <-> In c _cases /\ in_window c.
Proof.
  unfold cases, in_window. rewrite filter_In, andb_true_iff, !Z.leb_le. reflexivity.
Qed.

Lemma h2_mask_spec (_cases : list Case.t) (v : Violation.t) :
  h2_mask (cases _cases) v = true <-> passes_filter _cases v.
Proof.
  unfold h2_mask, passes_filter.
  rewrite !andb_true_iff, isin_In, isinZ_In, in_map_iff, String.eqb_eq.
  simpl. split.
  - intros [[[Hact [c [Hid Hc]]] Hfound] Hee].
    apply cases_In in Hc. destruct Hc as [Hc Hw].
    repeat split.
    + destruct Hact as [H | [H | []]]; [left | right]; symmetry; exact H.
    + exists c. auto.
    + destruct (Violation.violation_found v); [reflexivity | discriminate].
    + exact Hee.
  - intros [Hact [[c [Hc [Hw Hid]]] [Hfound Hee]]].
    repeat split.
    + destruct Hact as [H | H]; [left | right; left]; symmetry; exact H.
    + exists c. split; [exact Hid | apply cases_In; auto].
    + rewrite Hfound. reflexivity.
    + exact Hee.
Qed.

Lemma h2_mask_passes_filterb (_cases : list Case.t) (v : Violation.t) :
  h2_mask (cases _cases) v = passes_filterb _cases v.
Proof.
  apply eq_true_iff_eq. rewrite h2_mask_spec.
  unfold passes_filterb, passes_filter, in_window.
  rewrite !andb_true_iff, orb_true_iff, !String.eqb_eq, existsb_exists.
  split.
  - intros [Hact [[c [Hc [Hw Hid]]] [Hfound Hee]]]. repeat split; auto.
    exists c. rewrite !andb_true_iff, !Z.leb_le, Z.eqb_eq. tauto.
  - intros [[[Hact [c [Hc Hb]]] Hfound] Hee].
    rewrite !andb_true_iff, !Z.leb_le, Z.eqb_eq in Hb.
    repeat split; auto. exists c. tauto.
Qed.

(** The left join keeps every left row and invents none. *)
Lemma join_row_violation (right : list Employer.t) (v : Violation.t) (r : Row.t) :
  In r (join_row right v) -> Row.violation r = v.
Proof.
  unfold join_row. destruct (matches right v) as [| e es].
  - intros [H | []]. subst r. reflexivity.
  - intro H. apply in_map_iff in H. destruct H as [e' [H _]]. subst r. reflexivity.
Qed.

Lemma join_row_nonempty (right : list Employer.t) (v : Violation.t) :
  exists r, In r (join_row right v).
Proof.
  unfold join_row. destruct (matches right v) as [| e es].
  - eexists. left. reflexivity.
  - eexists. left. reflexivity.
Qed.

(** The join lists the left rows in another order at most. *)
Lemma insert_by_case_permutation (v : Violation.t) (l : list Violation.t) :
  Permutation (insert_by_case v l) (v :: l).
Proof.
  induction l as [| w l IH]; simpl; [apply Permutation_refl |].
  destruct (Violation.CASE_ID v <=? Violation.CASE_ID w); [apply Permutation_refl |].
  eapply Permutation_trans; [apply perm_skip, IH | apply perm_swap].
Qed.

Lemma sort_by_case_permutation (l : list Violation.t) :
  Permutation (sort_by_case l) l.
Proof.
  induction l as [| v l IH]; simpl; [constructor |].
  eapply Permutation_trans; [apply insert_by_case_permutation | apply perm_skip, IH].
Qed.

Lemma join_order_permutation (left : list Violation.t) (right : list Employer.t) :
  Permutation (join_order left right) left.
Proof.
  unfold join_order. destruct (_ && _); [apply Permutation_refl |].
  apply sort_by_case_permutation.
Qed.

Lemma in_join_order (left : list Violation.t) (right : list Employer.t) (v : Violation.t) :
  In v (join_order left right) <-> In v left.
Proof.
  split; apply Permutation_in;
    [| apply Permutation_sym]; apply join_order_permutation.
Qed.

Lemma in_join_violation (left : list Violation.t) (right : list Employer.t) (v : Violation.t) :
  In v (map Row.violation (join left right)) <-> In v left.
Proof.
  unfold join. rewrite in_map_iff. split.
  - intros [r [Hv Hr]]. apply in_flat_map in Hr. destruct Hr as [v' [Hv' Hr]].
    apply join_row_violation in Hr. apply in_join_order in Hv'. congruence.
  - intro Hv. destruct (join_row_nonempty right v) as [r Hr].
    exists r. split.
    + apply join_row_violation in Hr. exact Hr.
    + apply in_flat_map. exists v. split; [apply in_join_order, Hv | exact Hr].
Qed.

(** C2. The filter stage keeps exactly the violations whose category is
    H2A or H2B, whose case is in the case table with a conclusion year
    from 2010 to 2014 (both ends included), that were found, and that are
    employee records.  In particular a violation whose record type is not
    ["E"] is never in its output. *)
Theorem filter_stage_exact
  (_cases : list Case.t) (_employers : list Employer.t) (violations : list Violation.t) :
  let out := h2_employee_violations (cases _cases) (employer_basics _employers) violations in
  (forall v, In v (map Row.violation out) <-> In v violations /\ passes_filter _cases v) /\
  (forall v, Violation.ER_EE_VIOL v <> "E" -> ~ In v (map Row.violation out)).
Proof.
  assert (H : forall v,
    In v (map Row.violation
            (h2_employee_violations (cases _cases) (employer_basics _employers) violations))
    <-> In v violations /\ passes_filter _cases v).
  { intro v. unfold h2_employee_violations.
    rewrite in_join_violation, filter_In, h2_mask_spec. reflexivity. }
  split.
  - exact H.
  - intros v Hne Hin. apply H in Hin. destruct Hin as [_ [_ [_ [_ Hee]]]].
    exact (Hne Hee).
Qed.

(** ** The exclusion stage *)

(** C5. The exclusion stage removes exactly the rows whose description
    is, as a whole string and with the same case, an entry of the
    exclusion list: a row survives if and only if it was a filtered row
    and its description is not in the list.  A description that differs
    from an entry in the case of one letter, or that is only a part of an
    entry, is kept. *)
Theorem exclusion_stage_exact (descs : list string) (rows : list Row.t) :
  (forall r, In r (h2_guestworker_violations descs rows) <->
             In r rows /\ ~ In (VIOLATION_DESC r) descs) /\
  (forall v e n,
     let lower := Row.mk (Violation.mk 1 "H2A" true "E"
                    "17 preferential treatment given to H-2A workers" v) e n in
     let part := Row.mk (Violation.mk 1 "H2A" true "E"
                    "Preferential treatment given to H-2A workers" v) e n in
     h2_guestworker_violations non_guestworker_descs [lower; part] = [lower; part]).
Proof.
  split.
  - intro r. unfold h2_guestworker_violations.
    rewrite filter_In, negb_true_iff, isin_false. reflexivity.
  - intros v e n. reflexivity.
Qed.

(** ** The data contract *)

Lemma assert_ok_iff (descs : list string) (rows : list Row.t) :
  assert_descs_present descs rows = inr tt <->
  (forall d, In d descs -> In d (map VIOLATION_DESC rows)).
Proof.
  unfold assert_descs_present, py_assert, missing_descs.
  destruct (set_difference descs (map VIOLATION_DESC rows)) as [| d0 l] eqn:E; simpl.
  - split; [intros _ d Hd | reflexivity].
    destruct (in_dec string_dec d (map VIOLATION_DESC rows)) as [Hin | Hnin]; [exact Hin |].
    assert (Hs : In d (set_difference descs (map VIOLATION_DESC rows)))
      by (apply in_set_difference; auto).
    rewrite E in Hs. destruct Hs.
  - split; [discriminate | intro H].
    assert (Hs : In d0 (set_difference descs (map VIOLATION_DESC rows)))
      by (rewrite E; left; reflexivity).
    apply in_set_difference in Hs. destruct Hs as [Hd Hn].
    exfalso. apply Hn, H, Hd.
Qed.

Lemma assert_fails (descs : list string) (rows : list Row.t) :
  assert_descs_present descs rows = inr tt \/
  (assert_descs_present descs rows = inl (AssertionError []) /\
   missing_descs descs rows <> []).
Proof.
  unfold assert_descs_present, py_assert.
  destruct (missing_descs descs rows); simpl.
  - left. reflexivity.
  - right. split; [reflexivity | discriminate].
Qed.

Lemma run_ok (descs : list string)
  (_cases : list Case.t) (_employers : list Employer.t) (violations : list Violation.t)
  (table : list Agg.t) :
  run descs _cases _employers violations = inr table ->
  table = top_total_h2_backwages
            (aggregates_of descs
               (h2_employee_violations (cases _cases) (employer_basics _employers) violations)).
Proof.
  unfold run, bind, ret.
  destruct (assert_descs_present descs _) as [e | []]; [discriminate |].
  intro H. injection H as H. symmetry. exact H.
Qed.

(** C3. If some entry of the exclusion list is the description of no
    row of the filtered, employee-affecting set, the run ends in the
    assertion's error: no aggregate is computed and no table comes out. *)
Theorem missing_exclusion_entry_raises (descs : list string)
  (_cases : list Case.t) (_employers : list Employer.t) (violations : list Violation.t) :
  (exists d, In d descs /\
             ~ In d (map VIOLATION_DESC
                       (h2_employee_violations (cases _cases) (employer_basics _employers)
                                               violations))) ->
  run descs _cases _employers violations = inl (AssertionError []) /\
  forall table, run descs _cases _employers violations <> inr table.
Proof.
  intros [d [Hd Hmiss]].
  assert (Hrun : run descs _cases _employers violations = inl (AssertionError [])).
  { unfold run, bind.
    destruct (assert_fails descs
                (h2_employee_violations (cases _cases) (employer_basics _employers) violations))
      as [Hok | [Hko _]].
    - exfalso. apply Hmiss. exact (proj1 (assert_ok_iff _ _) Hok d Hd).
    - rewrite Hko. reflexivity. }
  split; [exact Hrun |].
  intros table Ht. rewrite Hrun in Ht. discriminate.
Qed.

(** C4, counterexample. On empty tables the notebook raises, all six
    entries of its list are missing, and the exception names none. *)
Lemma error_names_missing_entries_fails :
  notebook [] [] [] = inl (AssertionError []) /\
  missing_descs non_guestworker_descs (h2_employee_violations (cases []) (employer_basics []) [])
    = non_guestworker_descs /\
  forallb (fun d => negb (names_entry (AssertionError []) d)) non_guestworker_descs = true /\
  (error_names_missing_entries -> False).
Proof.
  split; [reflexivity |]. split; [reflexivity |]. split; [reflexivity |].
  intro H.
  specialize (H non_guestworker_descs [] [] [] (AssertionError []) eq_refl
                "17 Preferential treatment given to H-2A workers").
  simpl in H. discriminate H. left. reflexivity.
Qed.

(** C4, as the code has it. When the run raises, the exception is an
    [AssertionError] without arguments: at least one entry is missing, and
    the exception names no entry at all. *)
Theorem error_carries_no_message (descs : list string)
  (_cases : list Case.t) (_employers : list Employer.t) (violations : list Violation.t)
  (e : exn) :
  run descs _cases _employers violations = inl e ->
  e = AssertionError [] /\
  missing_descs descs
    (h2_employee_violations (cases _cases) (employer_basics _employers) violations) <> [] /\
  forall d, names_entry e d = false.
Proof.
  unfold run, bind, ret.
  destruct (assert_fails descs
              (h2_employee_violations (cases _cases) (employer_basics _employers) violations))
    as [Hok | [Hko Hmiss]].
  - rewrite Hok. discriminate.
  - rewrite Hko. intro H. injection H as H. subst e.
    split; [reflexivity |]. split; [exact Hmiss |]. intro d. reflexivity.
Qed.

(** ** The order on strings *)

Lemma ascii_compare_refl (a : ascii) : Ascii.compare a a = Eq.
Proof. unfold Ascii.compare. apply N.compare_refl. Qed.

Lemma ascii_compare_lt_trans (a b c : ascii) :
  Ascii.compare a b = Lt -> Ascii.compare b c = Lt -> Ascii.compare a c = Lt.
Proof.
  unfold Ascii.compare. rewrite !N.compare_lt_iff. apply N.lt_trans.
Qed.

Lemma string_compare_refl (s : string) : String.compare s s = Eq.
Proof.
  induction s as [| a s IH]; simpl; [reflexivity |].
  rewrite ascii_compare_refl. exact IH.
Qed.

Lemma string_compare_lt_trans (s1 : string) :
  forall s2 s3,
    String.compare s1 s2 = Lt -> String.compare s2 s3 = Lt -> String.compare s1 s3 = Lt.
Proof.
  induction s1 as [| a s1 IH]; intros [| b s2] [| c s3]; simpl; try congruence.
  destruct (Ascii.compare a b) eqn:Eab; destruct (Ascii.compare b c) eqn:Ebc;
    try discriminate; intros H12 H23.
  - apply Ascii.compare_eq_iff in Eab, Ebc. subst b c.
    rewrite ascii_compare_refl. eapply IH; eassumption.
  - apply Ascii.compare_eq_iff in Eab. subst b. rewrite Ebc. reflexivity.
  - apply Ascii.compare_eq_iff in Ebc. subst c. rewrite Eab. reflexivity.
  - rewrite (ascii_compare_lt_trans _ _ _ Eab Ebc). reflexivity.
Qed.

Lemma leb_cases (a b : string) : String.leb a b = true <-> str_lt a b \/ a = b.
Proof.
  unfold String.leb, str_lt, String.ltb.
  destruct (String.compare a b) eqn:E; split; intro H; try reflexivity; auto.
  - right. apply String.compare_eq_iff. exact E.
  - destruct H as [H | H]; [discriminate |].
    subst b. rewrite string_compare_refl in E. discriminate.
Qed.

Lemma str_lt_trans (a b c : string) : str_lt a b -> str_lt b c -> str_lt a c.
Proof.
  unfold str_lt, String.ltb. intros Hab Hbc.
  destruct (String.compare a b) eqn:Eab; try discriminate.
  destruct (String.compare b c) eqn:Ebc; try discriminate.
  rewrite (string_compare_lt_trans _ _ _ Eab Ebc). reflexivity.
Qed.

Lemma str_lt_irrefl (a : string) : ~ str_lt a a.
Proof.
  unfold str_lt, String.ltb. rewrite string_compare_refl. discriminate.
Qed.

Lemma leb_trans : Transitive (fun a b : string => is_true (StringOrder.leb a b)).
Proof.
  intros a b c. unfold is_true, StringOrder.leb. rewrite !leb_cases.
  intros [Hab | Hab] [Hbc | Hbc]; subst; auto.
  left. eapply str_lt_trans; eassumption.
Qed.

(** ** [sorted(set(...))] *)

Lemma in_sorted (x : string) (l : list string) : In x (sorted l) <-> In x l.
Proof.
  unfold sorted. split; apply Permutation_in.
  - apply Permutation_sym, StringSort.Permuted_sort.
  - apply StringSort.Permuted_sort.
Qed.

Lemma NoDup_sorted_set (l : list string) : NoDup (sorted (py_set l)).
Proof.
  unfold sorted, py_set.
  eapply Permutation_NoDup; [apply StringSort.Permuted_sort | apply NoDup_nodup].
Qed.

Lemma strict_of_NoDup (l : list string) :
  StronglySorted (fun a b : string => is_true (StringOrder.leb a b)) l ->
  NoDup l -> StronglySorted str_lt l.
Proof.
  induction 1 as [| a l Hs IH Hall]; intro Hnd; constructor.
  - apply IH. inversion Hnd. assumption.
  - inversion Hnd as [| ? ? Hnin Hnd']; subst.
    rewrite Forall_forall in *. intros b Hb.
    specialize (Hall b Hb). unfold is_true, StringOrder.leb in Hall.
    apply leb_cases in Hall. destruct Hall as [Hlt | Heq]; [exact Hlt |].
    subst b. contradiction.
Qed.

Lemma sorted_set_strict (l : list string) : StronglySorted str_lt (sorted (py_set l)).
Proof.
  apply strict_of_NoDup.
  - unfold sorted. apply StringSort.StronglySorted_sort. exact leb_trans.
  - apply NoDup_sorted_set.
Qed.

(** A strictly increasing list is determined by its elements. *)
Lemma strict_unique (l1 : list string) :
  forall l2,
    StronglySorted str_lt l1 -> StronglySorted str_lt l2 ->
    (forall x, In x l1 <-> In x l2) -> l1 = l2.
Proof.
  induction l1 as [| a l1 IH]; intros [| b l2] H1 H2 Hin.
  - reflexivity.
  - exfalso. apply (proj2 (Hin b)). left. reflexivity.
  - exfalso. apply (proj1 (Hin a)). left. reflexivity.
  - apply StronglySorted_inv in H1, H2.
    destruct H1 as [H1 Ha], H2 as [H2 Hb]. rewrite Forall_forall in Ha, Hb.
    assert (Hab : a = b).
    { destruct (proj1 (Hin a) (or_introl eq_refl)) as [E | Ia]; [congruence |].
      destruct (proj2 (Hin b) (or_introl eq_refl)) as [E | Ib]; [congruence |].
      exfalso. apply (str_lt_irrefl a).
      eapply str_lt_trans; [apply Ha, Ib | apply Hb, Ia]. }
    subst b. f_equal. apply IH; try assumption.
    intro x. split; intro Hx.
    + destruct (proj1 (Hin x) (or_intror Hx)) as [E | Hx']; [| exact Hx'].
      subst x. exfalso. exact (str_lt_irrefl a (Ha a Hx)).
    + destruct (proj2 (Hin x) (or_intror Hx)) as [E | Hx']; [| exact Hx'].
      subst x. exfalso. exact (str_lt_irrefl a (Hb a Hx)).
Qed.

(** ** The name summary *)

Lemma join_unique_strings_spec (series : list (option string)) :
  exists l,
    join_unique_strings series = String.concat " | " l /\
    StronglySorted str_lt l /\
    NoDup l /\
    (forall s, In s l <-> exists x, In x series /\ fillna x = s).
Proof.
  exists (sorted (py_set (map fillna series))). split; [reflexivity |].
  split; [apply sorted_set_strict |]. split; [apply NoDup_sorted_set |].
  intro s. rewrite in_sorted, in_py_set, in_map_iff.
  split; intros [x [H1 H2]]; exists x; auto.
Qed.

Lemma join_unique_strings_of (series : list (option string)) (l : list string) :
  StronglySorted str_lt l ->
  (forall s, In s l <-> exists x, In x series /\ fillna x = s) ->
  join_unique_strings series = String.concat " | " l.
Proof.
  intros Hl Hin.
  destruct (join_unique_strings_spec series) as [l' [Heq [Hs [_ Hin']]]].
  rewrite Heq. f_equal. apply strict_unique; try assumption.
  intro x. rewrite Hin, Hin'. reflexivity.
Qed.

Lemma join_unique_strings_one (series : list (option string)) (s : string) :
  series <> [] ->
  (forall x, In x series -> fillna x = s) ->
  join_unique_strings series = s.
Proof.
  intros Hne Hall.
  rewrite (join_unique_strings_of series [s]).
  - reflexivity.
  - repeat constructor.
  - intro t. simpl. split.
    + intros [E | []]. subst t. destruct series as [| x tl]; [congruence |].
      exists x. split; [left; reflexivity | apply Hall; left; reflexivity].
    + intros [x [Hx E]]. left. rewrite <- E. symmetry. apply Hall. exact Hx.
Qed.

Lemma join_unique_strings_two (series : list (option string)) (s1 s2 : string) :
  str_lt s1 s2 ->
  (forall x, In x series -> fillna x = s1 \/ fillna x = s2) ->
  (exists x, In x series /\ fillna x = s1) ->
  (exists x, In x series /\ fillna x = s2) ->
  join_unique_strings series = s1 ++ " | " ++ s2.
Proof.
  intros Hlt Hall H1 H2.
  rewrite (join_unique_strings_of series [s1; s2]).
  - simpl. reflexivity.
  - repeat constructor. exact Hlt.
  - intro t. simpl. split.
    + intros [E | [E | []]]; subst t; assumption.
    + intros [x [Hx E]]. destruct (Hall x Hx) as [H | H]; [left | right; left]; congruence.
Qed.

(** ** Groups and aggregates *)

Lemma has_key_spec (k : string) (r : Row.t) :
  has_key k r = true <-> Row.employer_id r = Some k.
Proof.
  unfold has_key. destruct (Row.employer_id r) as [k' |].
  - rewrite String.eqb_eq. split; congruence.
  - split; discriminate.
Qed.

Lemma in_get_group (rows : list Row.t) (k : string) (r : Row.t) :
  In r (get_group rows k) <-> In r rows /\ Row.employer_id r = Some k.
Proof. unfold get_group. rewrite filter_In, has_key_spec. reflexivity. Qed.

Lemma in_group_keys (rows : list Row.t) (k : string) :
  In k (group_keys rows) <-> exists r, In r rows /\ Row.employer_id r = Some k.
Proof.
  unfold group_keys. rewrite in_sorted, in_py_set, in_dropna, in_map_iff.
  split; intros [r [H1 H2]]; exists r; auto.
Qed.

Lemma in_aggregates (descs : list string) (rows : list Row.t) (a : Agg.t) :
  In a (aggregates_of descs rows) <->
  In (Agg.employer_id a) (group_keys (h2_guestworker_violations descs rows)) /\
  Agg.h2_backwages a =
    sum (map AMT_BW_ASSESSED (employer_rows descs rows (Agg.employer_id a))) /\
  Agg.names a =
    join_unique_strings (map Row.ER_LEGAL_NAME (employer_rows descs rows (Agg.employer_id a))).
Proof.
  unfold aggregates_of, employer_aggregates, by_employer, groupby_employer_id, employer_rows.
  rewrite map_map, in_map_iff. simpl. split.
  - intros [k [Ha Hk]]. subst a. simpl. auto.
  - intros [Hk [Hs Hn]]. exists (Agg.employer_id a). split; [| exact Hk].
    destruct a as [k s n]. simpl in *. subst s n. reflexivity.
Qed.

Lemma employer_rows_nonempty (descs : list string) (rows : list Row.t) (a : Agg.t) :
  In a (aggregates_of descs rows) ->
  employer_rows descs rows (Agg.employer_id a) <> [].
Proof.
  intros Ha. apply in_aggregates in Ha. destruct Ha as [Hk _].
  apply in_group_keys in Hk. destruct Hk as [r Hr].
  assert (Hin : In r (employer_rows descs rows (Agg.employer_id a)))
    by (apply in_get_group; exact Hr).
  intro E. rewrite E in Hin. destruct Hin.
Qed.

Lemma in_name_column (group : list Row.t) (s : string) :
  (exists x, In x (map Row.ER_LEGAL_NAME group) /\ fillna x = s) <->
  (exists r, In r group /\ fillna (Row.ER_LEGAL_NAME r) = s).
Proof.
  split.
  - intros [x [Hx E]]. apply in_map_iff in Hx. destruct Hx as [r [Hr Hin]].
    exists r. split; [exact Hin | congruence].
  - intros [r [Hin E]]. exists (Row.ER_LEGAL_NAME r). split; [| exact E].
    apply in_map. exact Hin.
Qed.

(** C6. For every employer of the aggregate table, [names] is the
    [" | "]-joined list of the distinct legal names of the employer's rows
    (a null counted as the empty string), in strictly increasing
    lexicographic order: every spelling appears, once.  In particular,
    when the rows carry exactly two spellings, [names] is the smaller,
    the delimiter, the larger. *)
Theorem names_summary (descs : list string) (rows : list Row.t) (a : Agg.t) :
  In a (aggregates_of descs rows) ->
  let group := employer_rows descs rows (Agg.employer_id a) in
  (exists l,
     Agg.names a = String.concat " | " l /\
     StronglySorted str_lt l /\
     NoDup l /\
     (forall s, In s l <-> exists r, In r group /\ fillna (Row.ER_LEGAL_NAME r) = s)) /\
  (forall s1 s2,
     str_lt s1 s2 ->
     (forall r, In r group ->
        fillna (Row.ER_LEGAL_NAME r) = s1 \/ fillna (Row.ER_LEGAL_NAME r) = s2) ->
     (exists r, In r group /\ fillna (Row.ER_LEGAL_NAME r) = s1) ->
     (exists r, In r group /\ fillna (Row.ER_LEGAL_NAME r) = s2) ->
     Agg.names a = s1 ++ " | " ++ s2).
Proof.
  intros Ha group. apply in_aggregates in Ha. destruct Ha as [_ [_ Hn]].
  fold group in Hn. split.
  - destruct (join_unique_strings_spec (map Row.ER_LEGAL_NAME group))
      as [l [Heq [Hs [Hnd Hin]]]].
    exists l. rewrite Hn. repeat split; try assumption.
    + intro H. apply in_name_column, Hin, H.
    + intro H. apply Hin, in_name_column, H.
  - intros s1 s2 Hlt Hall H1 H2. rewrite Hn.
    apply join_unique_strings_two; try assumption.
    + intros x Hx. apply in_map_iff in Hx. destruct Hx as [r [E Hr]].
      subst x. apply Hall, Hr.
    + apply in_name_column, H1.
    + apply in_name_column, H2.
Qed.

(** C10. When every legal name of an employer's rows is null, [names]
    is the empty string; when all its rows carry the same name (after a
    null is read as the empty string), [names] is that name and nothing
    else, so no delimiter is added.  [join_unique_strings] itself returns
    the empty string on a column of nulls. *)
Theorem single_name_summary (descs : list string) (rows : list Row.t) (a : Agg.t) :
  In a (aggregates_of descs rows) ->
  let group := employer_rows descs rows (Agg.employer_id a) in
  ((forall r, In r group -> Row.ER_LEGAL_NAME r = None) -> Agg.names a = "") /\
  (forall s, (forall r, In r group -> fillna (Row.ER_LEGAL_NAME r) = s) -> Agg.names a = s) /\
  (forall n, join_unique_strings (repeat None n) = "").
Proof.
  intros Ha group.
  assert (Hone : forall s,
            (forall r, In r group -> fillna (Row.ER_LEGAL_NAME r) = s) -> Agg.names a = s).
  { intros s Hall.
    pose proof (employer_rows_nonempty descs rows a Ha) as Hne. fold group in Hne.
    apply in_aggregates in Ha. destruct Ha as [_ [_ Hn]]. fold group in Hn.
    rewrite Hn. apply join_unique_strings_one.
    - destruct group; [congruence | discriminate].
    - intros x Hx. apply in_map_iff in Hx. destruct Hx as [r [E Hr]].
      subst x. apply Hall, Hr. }
  split; [| split].
  - intro Hnull. apply Hone. intros r Hr. rewrite (Hnull r Hr). reflexivity.
  - exact Hone.
  - intros [| n]; [reflexivity |].
    apply join_unique_strings_one; [discriminate |].
    intros x Hx. apply repeat_spec in Hx. subst x. reflexivity.
Qed.

(** ** The ranking stage *)

Lemma bw_leb_trans : Transitive (fun a b : Agg.t => is_true (BackwagesDesc.leb a b)).
Proof.
  intros a b c. unfold is_true, BackwagesDesc.leb, bw_leb.
  destruct (Agg.h2_backwages a) as [x |], (Agg.h2_backwages b) as [y |],
    (Agg.h2_backwages c) as [z |]; try congruence.
  rewrite !Qle_bool_iff. intros Hab Hbc. eapply Qle_trans; eassumption.
Qed.

Lemma series_ge_spec (x : option Q) (value : Q) :
  series_ge x value = true <-> exists q, x = Some q /\ (value <= q)%Q.
Proof.
  unfold series_ge. destruct x as [q |].
  - rewrite Qle_bool_iff. split.
    + intro H. exists q. auto.
    + intros [q' [E H]]. injection E as E. subst q'. exact H.
  - split; [discriminate | intros [q [E _]]; discriminate].
Qed.

Lemma in_top (aggs : list Agg.t) (a : Agg.t) :
  In a (top_total_h2_backwages aggs) <->
  In a aggs /\ exists x, Agg.h2_backwages a = Some x /\ (100000 <= x)%Q.
Proof.
  unfold top_total_h2_backwages.
  rewrite <- series_ge_spec,
          <- (filter_In (fun a => series_ge (Agg.h2_backwages a) 100000)).
  split; apply Permutation_in.
  - apply Permutation_sym, BackwagesSort.Permuted_sort.
  - apply BackwagesSort.Permuted_sort.
Qed.

Lemma sorted_numbers (l : list Agg.t) :
  StronglySorted (fun a b : Agg.t => is_true (BackwagesDesc.leb a b)) l ->
  (forall a, In a l -> exists x, Agg.h2_backwages a = Some x) ->
  StronglySorted bw_ge l.
Proof.
  induction 1 as [| a l Hs IH Hall]; intro Hnum; constructor.
  - apply IH. intros b Hb. apply Hnum. right. exact Hb.
  - rewrite Forall_forall in *. intros b Hb. specialize (Hall b Hb).
    destruct (Hnum a (or_introl eq_refl)) as [x Ex].
    destruct (Hnum b (or_intror Hb)) as [y Ey].
    exists x, y. split; [exact Ex |]. split; [exact Ey |].
    unfold is_true, BackwagesDesc.leb, bw_leb in Hall. rewrite Ex, Ey in Hall.
    apply Qle_bool_iff. exact Hall.
Qed.

(** C7. The ranking stage keeps exactly the aggregates whose total is
    at least 100000, each as often as it occurs, and lists them with
    every total no smaller than the totals after it.  A total equal to
    100000.00 is kept, a total of 99999.99 is not, and neither is a null
    total. *)
Theorem ranking_stage (aggs : list Agg.t) :
  Permutation (filter (fun a => series_ge (Agg.h2_backwages a) 100000) aggs)
              (top_total_h2_backwages aggs) /\
  StronglySorted bw_ge (top_total_h2_backwages aggs) /\
  (forall a, In a (top_total_h2_backwages aggs) <->
             In a aggs /\ exists x, Agg.h2_backwages a = Some x /\ (100000 <= x)%Q) /\
  (forall a x, In a aggs -> Agg.h2_backwages a = Some x -> (x == 100000.00)%Q ->
               In a (top_total_h2_backwages aggs)) /\
  (forall a x, Agg.h2_backwages a = Some x -> (x == 99999.99)%Q ->
               ~ In a (top_total_h2_backwages aggs)) /\
  (forall a, Agg.h2_backwages a = None -> ~ In a (top_total_h2_backwages aggs)).
Proof.
  split; [apply BackwagesSort.Permuted_sort |].
  split.
  { apply sorted_numbers.
    - apply BackwagesSort.StronglySorted_sort. exact bw_leb_trans.
    - intros a Ha. apply in_top in Ha. destruct Ha as [_ [x [Ex _]]].
      exists x. exact Ex. }
  split; [apply in_top |].
  split; [| split].
  - intros a x Ha Ex Heq. apply in_top. split; [exact Ha |].
    exists x. split; [exact Ex |]. rewrite Heq. discriminate.
  - intros a x Ex Heq Hin. apply in_top in Hin. destruct Hin as [_ [y [Ey Hle]]].
    rewrite Ex in Ey. injection Ey as Ey. subst y.
    rewrite Heq in Hle. apply Hle. reflexivity.
  - intros a Ex Hin. apply in_top in Hin. destruct Hin as [_ [y [Ey _]]].
    congruence.
Qed.

(** ** Sums *)





Lemma in_join (left : list Violation.t) (right : list Employer.t) (r : Row.t) :
  In r (join left right) <-> In (Row.violation r) left /\ In r (join_row right (Row.violation r)).
Proof.
  unfold join. rewrite in_flat_map. split.
  - intros [v [Hv Hr]]. rewrite (join_row_violation _ _ _ Hr).
    apply in_join_order in Hv. auto.
  - intros [Hv Hr]. exists (Row.violation r). split; [apply in_join_order, Hv | exact Hr].
Qed.

Lemma employer_rows_incl (descs : list string) (rows : list Row.t) (k : string) (r : Row.t) :
  In r (employer_rows descs rows k) ->
  In r rows /\ Row.employer_id r = Some k /\ ~ In (VIOLATION_DESC r) descs.
Proof.
  unfold employer_rows. rewrite in_get_group. unfold h2_guestworker_violations.
  rewrite filter_In, negb_true_iff, isin_false. tauto.
Qed.



(** ** Independence of row order

    The join lists the left rows in the frame's order or sorted by case.
    The contract check and the aggregate table depend on the rows only
    up to permutation. *)

Lemma Qplus_comm_eq (x y : Q) : (x + y)%Q = (y + x)%Q.
Proof.
  destruct x as [n1 d1], y as [n2 d2]. unfold Qplus. simpl.
  rewrite Z.add_comm, Pos.mul_comm. reflexivity.
Qed.

Lemma Qplus_assoc_eq (x y z : Q) : (x + y + z)%Q = (x + (y + z))%Q.
Proof.
  destruct x as [n1 d1], y as [n2 d2], z as [n3 d3]. unfold Qplus. simpl.
  rewrite !Pos2Z.inj_mul, Pos.mul_assoc. f_equal. ring.
Qed.

Lemma fold_plus_permutation (l l' : list Q) :
  Permutation l l' ->
  forall acc, fold_left Qplus l acc = fold_left Qplus l' acc.
Proof.
  induction 1 as [| x l l' _ IH | x y l | l l' l'' _ IH1 _ IH2]; intro acc; simpl.
  - reflexivity.
  - apply IH.
  - f_equal. rewrite !Qplus_assoc_eq, (Qplus_comm_eq y x). reflexivity.
  - rewrite IH1. apply IH2.
Qed.

Lemma dropna_permutation {A} (l l' : list (option A)) :
  Permutation l l' -> Permutation (dropna l) (dropna l').
Proof.
  induction 1 as [| [x |] l l' _ IH | [x |] [y |] l | l l' l'' _ IH1 _ IH2]; simpl;
    try (constructor; assumption); try apply Permutation_refl; try assumption.
  eapply Permutation_trans; eassumption.
Qed.

Lemma filter_permutation {A} (p : A -> bool) (l l' : list A) :
  Permutation l l' -> Permutation (filter p l) (filter p l').
Proof.
  induction 1 as [| x l l' _ IH | x y l | l l' l'' _ IH1 _ IH2]; simpl.
  - constructor.
  - destruct (p x); [constructor |]; assumption.
  - destruct (p x), (p y); try apply Permutation_refl. constructor.
  - eapply Permutation_trans; eassumption.
Qed.

Lemma exact_sum_permutation (xs xs' : list (option Q)) :
  Permutation xs xs' -> exact_sum xs = exact_sum xs'.
Proof.
  intro H. unfold exact_sum. apply fold_plus_permutation, dropna_permutation, H.
Qed.

Lemma sum_permutation (xs xs' : list (option Q)) :
  Permutation xs xs' -> sum xs = sum xs'.
Proof.
  intro H. unfold sum. rewrite (exact_sum_permutation _ _ H).
  apply dropna_permutation in H.
  destruct (dropna xs) as [| a l], (dropna xs') as [| a' l']; try reflexivity.
  - apply Permutation_nil in H. discriminate.
  - apply Permutation_sym, Permutation_nil in H. discriminate.
Qed.

Lemma join_flat (left : list Violation.t) (right : list Employer.t) :
  Permutation (join left right) (flat_map (join_row right) left).
Proof.
  unfold join. apply Permutation_flat_map, join_order_permutation.
Qed.

Lemma sorted_set_ext (l l' : list string) :
  (forall x, In x l <-> In x l') -> sorted (py_set l) = sorted (py_set l').
Proof.
  intro H. apply strict_unique; try apply sorted_set_strict.
  intro x. rewrite !in_sorted, !in_py_set. apply H.
Qed.

Lemma aggregates_of_permutation (descs : list string) (rows rows' : list Row.t) :
  Permutation rows rows' ->
  assert_descs_present descs rows = assert_descs_present descs rows' /\
  aggregates_of descs rows = aggregates_of descs rows'.
Proof.
  intro H. split.
  - unfold assert_descs_present, missing_descs, set_difference.
    do 3 f_equal. apply filter_ext. intro d. f_equal.
    apply eq_true_iff_eq. rewrite !isin_In, !in_map_iff.
    split; intros [r [E Hr]]; exists r; split; try exact E;
      eapply Permutation_in; try eassumption. apply Permutation_sym, H.
  - assert (Hg : Permutation (h2_guestworker_violations descs rows)
                             (h2_guestworker_violations descs rows'))
      by apply filter_permutation, H.
    unfold aggregates_of, employer_aggregates, by_employer, groupby_employer_id.
    rewrite !map_map. simpl.
    assert (Hk : group_keys (h2_guestworker_violations descs rows) =
                 group_keys (h2_guestworker_violations descs rows')).
    { unfold group_keys. apply sorted_set_ext. intro x. rewrite !in_dropna.
      split; apply Permutation_in; apply Permutation_map;
        [exact Hg | apply Permutation_sym, Hg]. }
    rewrite Hk. apply map_ext. intro k.
    assert (Hgrp : Permutation (get_group (h2_guestworker_violations descs rows) k)
                               (get_group (h2_guestworker_violations descs rows') k))
      by apply filter_permutation, Hg.
    f_equal.
    + apply sum_permutation, Permutation_map, Hgrp.
    + unfold join_unique_strings. f_equal. apply sorted_set_ext. intro s.
      rewrite !in_map_iff.
      split; intros [x [E Hx]]; exists x; split; try exact E;
        eapply Permutation_in; try eassumption;
        apply Permutation_map; [exact Hgrp | apply Permutation_sym, Hgrp].
Qed.

(** ** Join misses *)

Lemma matches_none (right : list Employer.t) (v : Violation.t) :
  (forall e, In e right -> Employer.CASE_ID e <> Violation.CASE_ID v) ->
  matches right v = [].
Proof.
  unfold matches. induction right as [| e right IH]; intro H; simpl; [reflexivity |].
  destruct (Z.eqb_spec (Employer.CASE_ID e) (Violation.CASE_ID v)) as [E | _].
  - exfalso. apply (H e); [left; reflexivity | exact E].
  - apply IH. intros e' He'. apply H. right. exact He'.
Qed.

Lemma dropna_app {A} (l1 l2 : list (option A)) :
  dropna (l1 ++ l2)%list = (dropna l1 ++ dropna l2)%list.
Proof.
  induction l1 as [| [a |] l1 IH]; simpl; [reflexivity | rewrite IH; reflexivity | exact IH].
Qed.

(** A row without employer identifier can be deleted from a frame
    without changing its groups. *)
Lemma by_employer_skip_null (x y : list Row.t) (r : Row.t) :
  Row.employer_id r = None ->
  by_employer (x ++ r :: y)%list = by_employer (x ++ y)%list.
Proof.
  intro Hnull. unfold by_employer, groupby_employer_id.
  assert (Hkeys : group_keys (x ++ r :: y)%list = group_keys (x ++ y)%list).
  { unfold group_keys. rewrite !map_app, !dropna_app. simpl. rewrite Hnull. reflexivity. }
  rewrite Hkeys. apply map_ext. intro k. f_equal.
  unfold get_group. rewrite !filter_app. simpl.
  unfold has_key at 2. rewrite Hnull. reflexivity.
Qed.

Lemma aggregates_skip_null (descs : list string) (x y : list Row.t) (r : Row.t) :
  Row.employer_id r = None ->
  aggregates_of descs (x ++ r :: y)%list = aggregates_of descs (x ++ y)%list.
Proof.
  intro Hnull. unfold aggregates_of, h2_guestworker_violations.
  rewrite !filter_app. simpl.
  destruct (negb (isin (VIOLATION_DESC r) descs)); [| reflexivity].
  rewrite (by_employer_skip_null _ _ r Hnull). reflexivity.
Qed.

(** C9. A violation whose case has no employer record is joined to null
    employer fields, lies in no employer's group, and adds to no
    aggregate: the aggregate table is the one computed without it. *)
Theorem join_miss_contributes_nothing (descs : list string)
  (_cases : list Case.t) (_employers : list Employer.t)
  (vs1 vs2 : list Violation.t) (v : Violation.t) :
  (forall e, In e _employers -> Employer.CASE_ID e <> Violation.CASE_ID v) ->
  let rows := h2_employee_violations (cases _cases) (employer_basics _employers) in
  join_row (employer_basics _employers) v = [Row.mk v None None] /\
  (forall g r,
     In g (by_employer (h2_guestworker_violations descs (rows (vs1 ++ v :: vs2)%list))) ->
     In r (snd g) -> Row.violation r <> v) /\
  aggregates_of descs (rows (vs1 ++ v :: vs2)%list) = aggregates_of descs (rows (vs1 ++ vs2)%list).
Proof.
  intros Hmiss rows.
  assert (Hrow : join_row (employer_basics _employers) v = [Row.mk v None None]).
  { unfold join_row, employer_basics. rewrite (matches_none _ _ Hmiss). reflexivity. }
  split; [exact Hrow |]. split.
  - intros g r Hg Hr Hv.
    unfold by_employer, groupby_employer_id in Hg.
    apply in_map_iff in Hg. destruct Hg as [k [Eg _]]. subst g. simpl in Hr.
    apply employer_rows_incl in Hr. destruct Hr as [Hin [Hk _]].
    unfold rows, h2_employee_violations in Hin. apply in_join in Hin.
    destruct Hin as [_ Hin]. rewrite Hv, Hrow in Hin.
    destruct Hin as [E | []]. subst r. discriminate Hk.
  - unfold rows, h2_employee_violations.
    rewrite (proj2 (aggregates_of_permutation descs _ _ (join_flat _ _))).
    rewrite (proj2 (aggregates_of_permutation descs _ _
                      (join_flat (filter (h2_mask (cases _cases)) (vs1 ++ vs2)%list) _))).
    rewrite !filter_app, !flat_map_app. simpl.
    destruct (h2_mask (cases _cases) v); [| reflexivity].
    simpl. rewrite Hrow. simpl.
    apply aggregates_skip_null. reflexivity.
Qed.

(** ** The sum invariant *)

Lemma matches_unique (right : list Employer.t) (v : Violation.t) :
  NoDup (map Employer.CASE_ID right) ->
  matches right v = [] \/ exists e, matches right v = [e].
Proof.
  induction right as [| e right IH]; intro Hnd; [left; reflexivity |].
  simpl in Hnd. inversion Hnd as [| ? ? Hnin Hnd']; subst.
  unfold matches. simpl.
  destruct (Z.eqb_spec (Employer.CASE_ID e) (Violation.CASE_ID v)) as [E | _].
  - right. exists e. f_equal. apply matches_none.
    intros e' He' E'. apply Hnin. rewrite E, <- E'. apply in_map. exact He'.
  - apply IH. exact Hnd'.
Qed.

Lemma find_matches (right : list Employer.t) (v : Violation.t) :
  find (fun e => Employer.CASE_ID e =? Violation.CASE_ID v) right = hd_error (matches right v).
Proof.
  unfold matches. induction right as [| e right IH]; simpl; [reflexivity |].
  destruct (Employer.CASE_ID e =? Violation.CASE_ID v); [reflexivity | exact IH].
Qed.

Lemma join_row_unique (right : list Employer.t) (v : Violation.t) :
  NoDup (map Employer.CASE_ID right) ->
  join_row right v = [row_of right v].
Proof.
  intro Hnd. unfold join_row, row_of. rewrite find_matches.
  destruct (matches_unique right v Hnd) as [E | [e E]]; rewrite E; reflexivity.
Qed.

Lemma flat_join_unique (left : list Violation.t) (right : list Employer.t) :
  NoDup (map Employer.CASE_ID right) ->
  flat_map (join_row right) left = map (row_of right) left.
Proof.
  intro Hnd. induction left as [| v left IH]; simpl; [reflexivity |].
  rewrite IH, (join_row_unique _ _ Hnd). reflexivity.
Qed.


Lemma row_of_violation (right : list Employer.t) (v : Violation.t) :
  Row.violation (row_of right v) = v.
Proof. unfold row_of. destruct (find _ right); reflexivity. Qed.

Lemma row_of_employer_id (right : list Employer.t) (v : Violation.t) :
  Row.employer_id (row_of right v) = resolve right v.
Proof. unfold row_of, resolve. destruct (find _ right); reflexivity. Qed.

Lemma filter_twice {A} (p q : A -> bool) (l : list A) :
  filter p (filter q l) = filter (fun x => q x && p x) l.
Proof.
  induction l as [| x l IH]; simpl; [reflexivity |].
  destruct (q x); simpl; [destruct (p x) |]; rewrite IH; reflexivity.
Qed.

(** With one employer record per case, the violations behind an
    employer's rows are, up to the order of the rows, the input
    violations that pass the filter, are not excluded and resolve to the
    employer. *)
Lemma employer_rows_violations (descs : list string)
  (_cases : list Case.t) (_employers : list Employer.t) (violations : list Violation.t)
  (k : string) :
  NoDup (map Employer.CASE_ID _employers) ->
  Permutation
    (map Row.violation
       (employer_rows descs
          (h2_employee_violations (cases _cases) (employer_basics _employers) violations) k))
    (filter (fun v => passes_filterb _cases v &&
                      negb (isin (Violation.VIOLATION_DESC v) descs) &&
                      resolves_to _employers k v)
            violations).
Proof.
  intro Hnd.
  unfold employer_rows, get_group, h2_guestworker_violations, h2_employee_violations,
    employer_basics.
  eapply Permutation_trans.
  { apply Permutation_map. do 2 apply filter_permutation. apply join_flat. }
  rewrite (flat_join_unique _ _ Hnd), !filter_map_swap, map_map, !filter_twice.
  rewrite (map_ext _ (fun v => v)) by (intro v; apply row_of_violation).
  rewrite map_id.
  rewrite (filter_ext _ (fun v => passes_filterb _cases v &&
                                  negb (isin (Violation.VIOLATION_DESC v) descs) &&
                                  resolves_to _employers k v));
    [apply Permutation_refl |].
  intro v. unfold has_key, resolves_to, VIOLATION_DESC.
  rewrite row_of_employer_id, row_of_violation, h2_mask_passes_filterb.
  rewrite andb_assoc. reflexivity.
Qed.

Lemma sum_total_or_zero (xs : list (option Q)) :
  total_or_zero (sum xs) = exact_sum xs.
Proof.
  unfold sum. destruct (dropna xs) as [| a l] eqn:E; simpl; [| reflexivity].
  unfold exact_sum. rewrite E. reflexivity.
Qed.

(** C1. With one employer record per case, every total of the table
    the run returns is the exact sum of the amounts of the input
    violations that pass the filter, are not excluded and resolve to that
    employer, a null amount adding nothing.  The same holds of every
    total of the aggregate table, once a null total is read as zero. *)
Theorem sum_invariant (descs : list string)
  (_cases : list Case.t) (_employers : list Employer.t) (violations : list Violation.t) :
  NoDup (map Employer.CASE_ID _employers) ->
  (forall a,
     In a (aggregates_of descs
             (h2_employee_violations (cases _cases) (employer_basics _employers) violations)) ->
     total_or_zero (Agg.h2_backwages a) =
       naive_backwages descs _cases _employers violations (Agg.employer_id a)) /\
  (forall table a,
     run descs _cases _employers violations = inr table ->
     In a table ->
     Agg.h2_backwages a =
       Some (naive_backwages descs _cases _employers violations (Agg.employer_id a))).
Proof.
  intro Hnd.
  assert (Hagg : forall a,
     In a (aggregates_of descs
             (h2_employee_violations (cases _cases) (employer_basics _employers) violations)) ->
     total_or_zero (Agg.h2_backwages a) =
       naive_backwages descs _cases _employers violations (Agg.employer_id a)).
  { intros a Ha. apply in_aggregates in Ha. destruct Ha as [_ [Hs _]].
    rewrite Hs, sum_total_or_zero. unfold naive_backwages.
    apply exact_sum_permutation.
    unfold AMT_BW_ASSESSED. rewrite <- (map_map Row.violation Violation.AMT_BW_ASSESSED).
    apply Permutation_map, employer_rows_violations, Hnd. }
  split; [exact Hagg |].
  intros table a Hrun Ha. apply run_ok in Hrun. subst table.
  apply in_top in Ha. destruct Ha as [Ha [x [Ex _]]].
  specialize (Hagg a Ha). rewrite Ex in *. simpl in Hagg. rewrite Hagg. reflexivity.
Qed.

(** ** The properties on the small data set *)

(** The whole run: the 2009 case, the employer record, the non-target
    category, the unfounded violation, the excluded description and the
    join miss add nothing; the two spellings are both listed. *)
Example run_example :
  run ex_descs ex_cases ex_employers ex_violations = inr [ex_noname; ex_acme].
Proof. vm_compute. reflexivity. Qed.

(** Without the one-record-per-case invariant the join repeats a
    violation once per employer record of its case, and the total counts
    it as often. *)
Example repeated_employer_record :
  let e := Employer.mk 1 (Some "12-3456789") (Some "Acme, Inc.") in
  let v := Violation.mk 1 "H2A" true "E" rate (Some 10%Q) in
  map Agg.h2_backwages
    (aggregates_of [] (h2_employee_violations (cases ex_cases) [e; e] [v]))
  = [Some 20%Q].
Proof. vm_compute. reflexivity. Qed.

Lemma ex_employers_unique : NoDup (map Employer.CASE_ID ex_employers).
Proof.
  repeat (constructor; [simpl; intuition discriminate |]). constructor.
Defined.

Lemma ex_acme_in : In ex_acme (aggregates_of ex_descs ex_rows).
Proof. vm_compute. left. reflexivity. Defined.

Lemma ex_noname_in : In ex_noname (aggregates_of ex_descs ex_rows).
Proof. vm_compute. right. left. reflexivity. Defined.

Lemma sum_invariant_witness :
  NoDup (map Employer.CASE_ID ex_employers) /\
  In ex_acme (aggregates_of ex_descs ex_rows) /\
  total_or_zero (Agg.h2_backwages ex_acme) =
    naive_backwages ex_descs ex_cases ex_employers ex_violations "12-3456789" /\
  run ex_descs ex_cases ex_employers ex_violations = inr [ex_noname; ex_acme] /\
  Agg.h2_backwages ex_noname =
    Some (naive_backwages ex_descs ex_cases ex_employers ex_violations "98-7654321").
Proof.
  split; [exact ex_employers_unique |]. split; [exact ex_acme_in |].
  destruct (sum_invariant ex_descs ex_cases ex_employers ex_violations ex_employers_unique)
    as [Hagg Hrun].
  split; [exact (Hagg ex_acme ex_acme_in) |]. split; [reflexivity |].
  exact (Hrun [ex_noname; ex_acme] ex_noname eq_refl (or_introl eq_refl)).
Defined.

Lemma missing_exclusion_entry_raises_witness :
  (exists d, In d non_guestworker_descs /\
             ~ In d (map VIOLATION_DESC
                       (h2_employee_violations (cases ex_cases) (employer_basics ex_employers)
                                               ex_violations))) /\
  notebook ex_cases ex_employers ex_violations = inl (AssertionError []) /\
  (forall table, notebook ex_cases ex_employers ex_violations <> inr table).
Proof.
  assert (H : exists d, In d non_guestworker_descs /\
             ~ In d (map VIOLATION_DESC
                       (h2_employee_violations (cases ex_cases) (employer_basics ex_employers)
                                               ex_violations))).
  { exists "17 Preferential treatment given to H-2A workers".
    split; [left; reflexivity |].
    vm_compute. intuition discriminate. }
  split; [exact H |].
  exact (missing_exclusion_entry_raises non_guestworker_descs
           ex_cases ex_employers ex_violations H).
Defined.

Lemma error_carries_no_message_witness :
  notebook ex_cases ex_employers ex_violations = inl (AssertionError []) /\
  AssertionError [] = AssertionError [] /\
  missing_descs non_guestworker_descs
    (h2_employee_violations (cases ex_cases) (employer_basics ex_employers) ex_violations)
    <> [] /\
  (forall d, names_entry (AssertionError []) d = false).
Proof.
  split; [reflexivity |].
  exact (error_carries_no_message non_guestworker_descs
           ex_cases ex_employers ex_violations (AssertionError []) eq_refl).
Defined.

Lemma names_summary_witness :
  In ex_acme (aggregates_of ex_descs ex_rows) /\
  (exists l,
     Agg.names ex_acme = String.concat " | " l /\
     StronglySorted str_lt l /\
     NoDup l /\
     (forall s, In s l <->
        exists r, In r (employer_rows ex_descs ex_rows "12-3456789") /\
                  fillna (Row.ER_LEGAL_NAME r) = s)) /\
  (forall s1 s2,
     str_lt s1 s2 ->
     (forall r, In r (employer_rows ex_descs ex_rows "12-3456789") ->
        fillna (Row.ER_LEGAL_NAME r) = s1 \/ fillna (Row.ER_LEGAL_NAME r) = s2) ->
     (exists r, In r (employer_rows ex_descs ex_rows "12-3456789") /\
                fillna (Row.ER_LEGAL_NAME r) = s1) ->
     (exists r, In r (employer_rows ex_descs ex_rows "12-3456789") /\
                fillna (Row.ER_LEGAL_NAME r) = s2) ->
     Agg.names ex_acme = s1 ++ " | " ++ s2).
Proof.
  split; [exact ex_acme_in |].
  exact (names_summary ex_descs ex_rows ex_acme ex_acme_in).
Defined.



Lemma ex_miss_unmatched :
  forall e, In e ex_employers -> Employer.CASE_ID e <> Violation.CASE_ID ex_miss.
Proof.
  intros e He. simpl in He.
  destruct He as [E | [E | [E | [E | []]]]]; subst e; discriminate.
Defined.

Lemma join_miss_contributes_nothing_witness :
  (forall e, In e ex_employers -> Employer.CASE_ID e <> Violation.CASE_ID ex_miss) /\
  join_row (employer_basics ex_employers) ex_miss = [Row.mk ex_miss None None] /\
  (forall g r,
     In g (by_employer
             (h2_guestworker_violations ex_descs
                (h2_employee_violations (cases ex_cases) (employer_basics ex_employers)
                   (ex_head ++ ex_miss :: ex_tail)%list))) ->
     In r (snd g) -> Row.violation r <> ex_miss) /\
  aggregates_of ex_descs
    (h2_employee_violations (cases ex_cases) (employer_basics ex_employers)
       (ex_head ++ ex_miss :: ex_tail)%list)
  = aggregates_of ex_descs
      (h2_employee_violations (cases ex_cases) (employer_basics ex_employers)
         (ex_head ++ ex_tail)%list).
Proof.
  split; [exact ex_miss_unmatched |].
  exact (join_miss_contributes_nothing ex_descs ex_cases ex_employers
           ex_head ex_tail ex_miss ex_miss_unmatched).
Defined.

Lemma single_name_summary_witness :
  In ex_noname (aggregates_of ex_descs ex_rows) /\
  ((forall r, In r (employer_rows ex_descs ex_rows "98-7654321") ->
              Row.ER_LEGAL_NAME r = None) ->
   Agg.names ex_noname = "") /\
  (forall s,
     (forall r, In r (employer_rows ex_descs ex_rows "98-7654321") ->
                fillna (Row.ER_LEGAL_NAME r) = s) ->
     Agg.names ex_noname = s) /\
  (forall n, join_unique_strings (repeat None n) = "").
Proof.
  split; [exact ex_noname_in |].
  exact (single_name_summary ex_descs ex_rows ex_noname ex_noname_in).
Defined.

(** ** When the run returns *)

Lemma in_rows_desc (_cases : list Case.t) (_employers : list Employer.t)
  (violations : list Violation.t) (d : string) :
  In d (map VIOLATION_DESC
          (h2_employee_violations (cases _cases) (employer_basics _employers) violations)) <->
  exists v, In v violations /\ passes_filter _cases v /\ Violation.VIOLATION_DESC v = d.
Proof.
  unfold h2_employee_violations. split.
  - intro H. apply in_map_iff in H. destruct H as [r [Hd Hr]].
    exists (Row.violation r). split; [| split; [| exact Hd]].
    + apply in_join in Hr. destruct Hr as [Hv _]. apply filter_In in Hv. tauto.
    + apply in_join in Hr. destruct Hr as [Hv _]. apply filter_In in Hv.
      apply h2_mask_spec. tauto.
  - intros [v [Hv [Hp Hd]]].
    assert (Hin : In v (map Row.violation
                          (join (filter (h2_mask (cases _cases)) violations)
                                (employer_basics _employers)))).
    { apply in_join_violation, filter_In. split; [exact Hv | apply h2_mask_spec, Hp]. }
    apply in_map_iff in Hin. destruct Hin as [r [Er Hr]].
    apply in_map_iff. exists r. split; [| exact Hr].
    unfold VIOLATION_DESC. rewrite Er. exact Hd.
Qed.

(** X1. The assertion is the only way the run fails: it returns a table
    exactly when every entry of the exclusion list is the description of
    some violation that passes the filter, and the table is then the
    ranked aggregate table. *)
Theorem run_returns_iff (descs : list string)
  (_cases : list Case.t) (_employers : list Employer.t) (violations : list Violation.t)
  (table : list Agg.t) :
  run descs _cases _employers violations = inr table <->
  (forall d, In d descs ->
     exists v, In v violations /\ passes_filter _cases v /\ Violation.VIOLATION_DESC v = d) /\
  table = top_total_h2_backwages
            (aggregates_of descs
               (h2_employee_violations (cases _cases) (employer_basics _employers) violations)).
Proof.
  split.
  - intro Hrun. split; [| apply run_ok, Hrun].
    intros d Hd. apply (proj1 (in_rows_desc _cases _employers violations d)).
    unfold run, bind in Hrun.
    destruct (assert_descs_present descs _) as [e | []] eqn:Ha; [discriminate |].
    exact (proj1 (assert_ok_iff _ _) Ha d Hd).
  - intros [Hall Ht]. subst table. unfold run, bind, ret.
    rewrite (proj2 (assert_ok_iff descs _)); [reflexivity |].
    intros d Hd. apply (proj2 (in_rows_desc _cases _employers violations d)), Hall, Hd.
Qed.

(** X2. On data in which no violation passes the filter, and so on
    empty tables, the notebook stops at its assertion. *)
Theorem notebook_raises_without_qualifying_rows
  (_cases : list Case.t) (_employers : list Employer.t) (violations : list Violation.t) :
  (forall v, In v violations -> ~ passes_filter _cases v) ->
  notebook _cases _employers violations = inl (AssertionError []).
Proof.
  intro Hnone. unfold notebook, run, bind.
  destruct (assert_fails non_guestworker_descs
              (h2_employee_violations (cases _cases) (employer_basics _employers) violations))
    as [Hok | [Hko _]].
  - exfalso.
    pose proof (proj1 (assert_ok_iff _ _) Hok
                  "17 Preferential treatment given to H-2A workers"
                  (or_introl eq_refl)) as Hin.
    apply in_rows_desc in Hin. destruct Hin as [v [Hv [Hp _]]].
    exact (Hnone v Hv Hp).
  - rewrite Hko. reflexivity.
Qed.

(** ** One row per qualifying violation *)







(** ** The index of the aggregate table *)

Lemma aggregate_ids (descs : list string) (rows : list Row.t) :
  map Agg.employer_id (aggregates_of descs rows) =
  group_keys (h2_guestworker_violations descs rows).
Proof.
  unfold aggregates_of, employer_aggregates, by_employer, groupby_employer_id.
  rewrite !map_map. simpl. apply map_id.
Qed.

(** X4. The aggregate table has one row per employer identifier carried
    by a surviving row, and no other; its identifiers come in strictly
    increasing order, so none is repeated. *)
Theorem one_aggregate_per_employer (descs : list string) (rows : list Row.t) :
  let ids := map Agg.employer_id (aggregates_of descs rows) in
  StronglySorted str_lt ids /\
  NoDup ids /\
  (forall k, In k ids <->
     exists r, In r rows /\ ~ In (VIOLATION_DESC r) descs /\ Row.employer_id r = Some k).
Proof.
  intro ids. unfold ids. rewrite aggregate_ids. unfold group_keys.
  split; [apply sorted_set_strict |]. split; [apply NoDup_sorted_set |].
  intro k. fold (group_keys (h2_guestworker_violations descs rows)).
  rewrite in_group_keys. unfold h2_guestworker_violations.
  split; intros [r H]; exists r;
    rewrite filter_In, negb_true_iff, isin_false in *; tauto.
Qed.

(** ** Where the rows of the output come from *)

(** Dropping lines from a table keeps its identifiers distinct. *)
Lemma distinct_ids_filter (keep : Agg.t -> bool) (aggs : list Agg.t) :
  NoDup (map Agg.employer_id aggs) ->
  NoDup (map Agg.employer_id (filter keep aggs)).
Proof.
  intro Hnd. induction aggs as [| a aggs IH]; simpl in *; [constructor |].
  apply NoDup_cons_iff in Hnd. destruct Hnd as [Hnin Hnd].
  destruct (keep a); simpl; [| apply IH, Hnd].
  constructor; [| apply IH, Hnd].
  rewrite in_map_iff. intros [b [E Hb]]. apply filter_In in Hb.
  apply Hnin. rewrite <- E. apply in_map. tauto.
Qed.

Lemma join_row_employer (right : list Employer.t) (r : Row.t) (k : string) :
  In r (join_row right (Row.violation r)) ->
  Row.employer_id r = Some k ->
  exists e, In e right /\
            Employer.CASE_ID e = Violation.CASE_ID (Row.violation r) /\
            Employer.employer_id e = Some k.
Proof.
  unfold join_row. intros Hin Hk.
  destruct (matches right (Row.violation r)) as [| e0 es] eqn:Em.
  - destruct Hin as [E | []]. rewrite <- E in Hk. discriminate Hk.
  - apply in_map_iff in Hin. destruct Hin as [e [E He]].
    rewrite <- Em in He. unfold matches in He. apply filter_In in He.
    destruct He as [He Hid]. apply Z.eqb_eq in Hid.
    exists e. split; [exact He |]. split; [exact Hid |].
    rewrite <- E in Hk. exact Hk.
Qed.

(** X5. In the table the run returns no employer identifier occurs
    twice, and every identifier is that of an employer record whose case
    has a violation that passes the filter and is not excluded. *)
Theorem output_rows_have_a_source (descs : list string)
  (_cases : list Case.t) (_employers : list Employer.t) (violations : list Violation.t)
  (table : list Agg.t) :
  run descs _cases _employers violations = inr table ->
  NoDup (map Agg.employer_id table) /\
  (forall a, In a table ->
     exists v e,
       In v violations /\ passes_filter _cases v /\
       ~ In (Violation.VIOLATION_DESC v) descs /\
       In e _employers /\
       Employer.CASE_ID e = Violation.CASE_ID v /\
       Employer.employer_id e = Some (Agg.employer_id a)).
Proof.
  intro Hrun. apply run_ok in Hrun. subst table. split.
  - unfold top_total_h2_backwages.
    eapply Permutation_NoDup.
    + apply Permutation_map, BackwagesSort.Permuted_sort.
    + apply distinct_ids_filter. rewrite aggregate_ids. apply NoDup_sorted_set.
  - intros a Ha. apply in_top in Ha. destruct Ha as [Ha _].
    apply in_aggregates in Ha. destruct Ha as [Hk _].
    apply in_group_keys in Hk. destruct Hk as [r [Hr Hid]].
    unfold h2_guestworker_violations in Hr.
    rewrite filter_In, negb_true_iff, isin_false in Hr. destruct Hr as [Hr Hdesc].
    unfold h2_employee_violations in Hr. apply in_join in Hr. destruct Hr as [Hv Hrow].
    apply filter_In in Hv. destruct Hv as [Hv Hmask]. apply h2_mask_spec in Hmask.
    destruct (join_row_employer _ _ _ Hrow Hid) as [e [He [Hcase Heid]]].
    exists (Row.violation r), e. unfold employer_basics in He. tauto.
Qed.

(** ** Groups partition the rows *)

Section Partition.

Context {A K : Type} (sel : K -> A -> bool).

Hypothesis sel_disjoint :
  forall k k' r, sel k r = true -> sel k' r = true -> k = k'.

Lemma filter_disjoint_app (p q : A -> bool) (l : list A) :
  (forall r, p r = true -> q r = false) ->
  Permutation (filter p l ++ filter q l)%list (filter (fun r => p r || q r) l).
Proof.
  intro Hd. induction l as [| x l IH]; simpl; [constructor |].
  destruct (p x) eqn:Ep; simpl.
  - rewrite (Hd x Ep). constructor. exact IH.
  - destruct (q x); [| exact IH].
    apply Permutation_sym, Permutation_cons_app, Permutation_sym, IH.
Qed.

Lemma groups_partition (ks : list K) (rows : list A) :
  NoDup ks ->
  Permutation (flat_map (fun k => filter (sel k) rows) ks)
              (filter (fun r => existsb (fun k => sel k r) ks) rows).
Proof.
  induction 1 as [| k ks Hnin Hnd IH]; simpl.
  - induction rows as [| r rows IHr]; simpl; [constructor | exact IHr].
  - eapply Permutation_trans; [apply Permutation_app_head, IH |].
    apply filter_disjoint_app.
    intros r Hk. destruct (existsb (fun k0 => sel k0 r) ks) eqn:E; [| reflexivity].
    apply existsb_exists in E. destruct E as [k' [Hin Hk']].
    rewrite (sel_disjoint _ _ _ Hk Hk') in Hnin. contradiction.
Qed.

End Partition.

Lemma has_key_disjoint (k k' : string) (r : Row.t) :
  has_key k r = true -> has_key k' r = true -> k = k'.
Proof. rewrite !has_key_spec. congruence. Qed.

Lemma groups_cover (rows : list Row.t) :
  Permutation (flat_map (get_group rows) (group_keys rows)) (filter has_employer rows).
Proof.
  eapply Permutation_trans.
  - apply (groups_partition has_key has_key_disjoint).
    unfold group_keys. apply NoDup_sorted_set.
  - rewrite (filter_ext_in _ has_employer); [apply Permutation_refl |].
    intros r Hr. unfold has_employer.
    destruct (Row.employer_id r) as [k |] eqn:Ek.
    + apply existsb_exists. exists k. split.
      * apply in_group_keys. exists r. auto.
      * apply has_key_spec, Ek.
    + destruct (existsb _ _) eqn:E; [| reflexivity].
      apply existsb_exists in E. destruct E as [k [_ Hk]].
      apply has_key_spec in Hk. congruence.
Qed.

(** ** Conservation of the amounts *)

Lemma Qplus_0_l_eq (x : Q) : (0 + x)%Q = x.
Proof.
  destruct x as [n d]. unfold Qplus. simpl. rewrite Z.mul_1_r. reflexivity.
Qed.

Lemma fold_plus_acc (l : list Q) :
  forall acc, fold_left Qplus l acc = (acc + fold_left Qplus l 0)%Q.
Proof.
  induction l as [| x l IH]; intro acc; simpl.
  - rewrite Qplus_comm_eq, Qplus_0_l_eq. reflexivity.
  - rewrite (IH (acc + x)%Q), (IH (0 + x)%Q), Qplus_0_l_eq, Qplus_assoc_eq. reflexivity.
Qed.

Lemma exact_sum_app (xs ys : list (option Q)) :
  exact_sum (xs ++ ys)%list = (exact_sum xs + exact_sum ys)%Q.
Proof.
  unfold exact_sum. rewrite dropna_app, fold_left_app. apply fold_plus_acc.
Qed.

Lemma exact_sum_cons (x : option Q) (xs : list (option Q)) :
  exact_sum (x :: xs) = (total_or_zero x + exact_sum xs)%Q.
Proof.
  unfold exact_sum. destruct x as [q |]; simpl.
  - rewrite fold_plus_acc, Qplus_0_l_eq. reflexivity.
  - rewrite Qplus_0_l_eq. reflexivity.
Qed.

Lemma group_sums_add_up {K} (f : K -> list (option Q)) (ks : list K) :
  exact_sum (map (fun k => sum (f k)) ks) = exact_sum (flat_map f ks).
Proof.
  induction ks as [| k ks IH]; [reflexivity |].
  cbn [map flat_map].
  rewrite exact_sum_cons, sum_total_or_zero, IH, exact_sum_app. reflexivity.
Qed.

Lemma map_flat_map {A B C} (g : B -> C) (f : A -> list B) (l : list A) :
  flat_map (fun x => map g (f x)) l = map g (flat_map f l).
Proof.
  induction l as [| x l IH]; simpl; [reflexivity |].
  rewrite IH, map_app. reflexivity.
Qed.

(** X6. Grouping loses and repeats nothing: the totals of the aggregate
    table, a null total adding nothing, add up to the exact sum of the
    amounts of the surviving rows that carry an employer identifier. *)
Theorem totals_add_up (descs : list string) (rows : list Row.t) :
  grand_total (aggregates_of descs rows) =
  exact_sum
    (map AMT_BW_ASSESSED (filter has_employer (h2_guestworker_violations descs rows))).
Proof.
  unfold grand_total, aggregates_of, employer_aggregates, by_employer, groupby_employer_id.
  rewrite !map_map. simpl.
  rewrite (group_sums_add_up
             (fun k => map AMT_BW_ASSESSED
                         (get_group (h2_guestworker_violations descs rows) k))).
  rewrite map_flat_map.
  apply exact_sum_permutation, Permutation_map, groups_cover.
Qed.

(** ** Independence of the order of the input tables *)

Lemma flat_map_permutation {A B} (f g : A -> list B) (l l' : list A) :
  Permutation l l' ->
  (forall x, Permutation (f x) (g x)) ->
  Permutation (flat_map f l) (flat_map g l').
Proof.
  intros Hl Hfg. induction Hl as [| x l l' _ IH | x y l | l l' l'' _ IH1 Hl2 IH2]; simpl.
  - constructor.
  - apply Permutation_app; [apply Hfg | exact IH].
  - rewrite !app_assoc. apply Permutation_app.
    + eapply Permutation_trans; [apply Permutation_app_comm |].
      apply Permutation_app; apply Hfg.
    + induction l as [| z l IHl]; simpl; [constructor |].
      apply Permutation_app; [apply Hfg | exact IHl].
  - eapply Permutation_trans; [exact IH1 |].
    eapply Permutation_trans; [| exact IH2].
    clear -Hfg. induction l' as [| z l' IHl]; simpl; [constructor |].
    apply Permutation_app; [apply Permutation_sym, Hfg | exact IHl].
Qed.

Lemma join_row_permutation (right right' : list Employer.t) (v : Violation.t) :
  Permutation right right' ->
  Permutation (join_row right v) (join_row right' v).
Proof.
  intro H.
  assert (Hm : Permutation (matches right v) (matches right' v))
    by apply filter_permutation, H.
  unfold join_row.
  destruct (matches right v) as [| e es]; destruct (matches right' v) as [| e' es'].
  - apply Permutation_refl.
  - apply Permutation_nil in Hm. discriminate.
  - apply Permutation_sym, Permutation_nil in Hm. discriminate.
  - apply Permutation_map, Hm.
Qed.

Lemma h2_mask_ext (cs cs' : list Case.t) (v : Violation.t) :
  Permutation cs cs' -> h2_mask cs v = h2_mask cs' v.
Proof.
  intro H. unfold h2_mask. do 3 f_equal.
  apply eq_true_iff_eq. rewrite !isinZ_In.
  split; apply Permutation_in, Permutation_map; [exact H | apply Permutation_sym, H].
Qed.

Lemma h2_employee_violations_permutation
  (cs cs' : list Case.t) (es es' : list Employer.t) (vs vs' : list Violation.t) :
  Permutation cs cs' -> Permutation es es' -> Permutation vs vs' ->
  Permutation (h2_employee_violations cs es vs) (h2_employee_violations cs' es' vs').
Proof.
  intros Hc He Hv. unfold h2_employee_violations, join.
  apply flat_map_permutation.
  - rewrite (filter_ext _ _ (fun v => h2_mask_ext cs cs' v Hc)).
    eapply Permutation_trans; [apply join_order_permutation |].
    eapply Permutation_trans; [apply filter_permutation, Hv |].
    apply Permutation_sym, join_order_permutation.
  - intro v. apply join_row_permutation, He.
Qed.

(** X7. The result of the run, table or error, does not depend on the
    order of the rows of any of the three input tables. *)
Theorem run_order_independent (descs : list string)
  (_cases _cases' : list Case.t) (_employers _employers' : list Employer.t)
  (violations violations' : list Violation.t) :
  Permutation _cases _cases' ->
  Permutation _employers _employers' ->
  Permutation violations violations' ->
  run descs _cases _employers violations = run descs _cases' _employers' violations'.
Proof.
  intros Hc He Hv.
  assert (Hrows : Permutation
            (h2_employee_violations (cases _cases) (employer_basics _employers) violations)
            (h2_employee_violations (cases _cases') (employer_basics _employers') violations')).
  { apply h2_employee_violations_permutation; [| exact He | exact Hv].
    unfold cases. apply filter_permutation, Hc. }
  destruct (aggregates_of_permutation descs _ _ Hrows) as [Ha Hg].
  unfold run. rewrite Ha, Hg. reflexivity.
Qed.

(** ** More on the name summary *)

(** X8. The name summary depends only on the set of spellings of the
    column, a null counting as the empty string: repeated names, the
    order of the rows, and a null in place of an empty name change
    nothing. *)
Theorem names_depend_on_spellings_only (series series' : list (option string)) :
  (forall s, In s (map fillna series) <-> In s (map fillna series')) ->
  join_unique_strings series = join_unique_strings series'.
Proof.
  intro H. unfold join_unique_strings. f_equal. apply sorted_set_ext, H.
Qed.

Lemma str_lt_empty (s : string) : s <> "" -> str_lt "" s.
Proof. destruct s; [congruence | reflexivity]. Qed.

Lemma in_named (series : list (option string)) (s : string) :
  In s (map fillna (named series)) <-> In s (map fillna series) /\ s <> "".
Proof.
  unfold named. rewrite !in_map_iff. split.
  - intros [x [E Hx]]. apply filter_In in Hx. destruct Hx as [Hx Hne].
    apply negb_true_iff, String.eqb_neq in Hne. split; [exists x; auto | congruence].
  - intros [[x [E Hx]] Hne]. exists x. split; [exact E |].
    apply filter_In. split; [exact Hx |].
    apply negb_true_iff, String.eqb_neq. congruence.
Qed.

(** X9. When a group has a null or empty legal name besides real ones,
    the empty spelling sorts first, so [names] starts with the delimiter,
    followed by the summary of the real names. *)
Theorem null_name_leads_with_delimiter (series : list (option string)) :
  (exists x, In x series /\ fillna x = "") ->
  named series <> [] ->
  join_unique_strings series = " | " ++ join_unique_strings (named series).
Proof.
  intros [x0 [Hx0 E0]] Hne.
  set (l := sorted (py_set (map fillna (named series)))).
  assert (Hl : forall s, In s l <-> In s (map fillna series) /\ s <> "").
  { intro s. unfold l. rewrite in_sorted, in_py_set. apply in_named. }
  rewrite (join_unique_strings_of series ("" :: l)).
  - unfold join_unique_strings. fold l.
    destruct l as [| s l'] eqn:El; [| reflexivity].
    exfalso. destruct (named series) as [| y ys] eqn:En; [congruence |].
    assert (Hy : In (fillna y) (map fillna (named series)))
      by (rewrite En; left; reflexivity).
    apply in_named in Hy. apply (proj2 (Hl (fillna y))) in Hy. destruct Hy.
  - constructor; [apply sorted_set_strict |].
    apply Forall_forall. intros s Hs. apply str_lt_empty, (proj1 (Hl s) Hs).
  - intro s. simpl. rewrite Hl, in_map_iff. split.
    + intros [E | [[x [E Hx]] _]]; [exists x0; subst s; auto | exists x; auto].
    + intros [x [E Hx]]. destruct (string_dec s "") as [Es | Es]; [left; congruence |].
      right. split; [exists x; auto | exact Es].
Qed.

(** ** The detail cell *)

Lemma peri_is_group (guest : list Row.t) :
  peri_violations guest = get_group guest "88-0175412".
Proof. reflexivity. Qed.

(** X10. The rows the detail cell selects for employer ["88-0175412"]
    are exactly the rows behind that employer's line of the aggregate
    table: the line's total and name summary are computed from them, and
    there is no such line exactly when the selection is empty. *)
Theorem detail_rows_match_aggregate (descs : list string) (rows : list Row.t) :
  let guest := h2_guestworker_violations descs rows in
  (forall a, In a (aggregates_of descs rows) -> Agg.employer_id a = "88-0175412" ->
     Agg.h2_backwages a = sum (map AMT_BW_ASSESSED (peri_violations guest)) /\
     Agg.names a = join_unique_strings (map Row.ER_LEGAL_NAME (peri_violations guest))) /\
  (peri_violations guest = [] <->
   ~ In "88-0175412" (map Agg.employer_id (aggregates_of descs rows))) /\
  (forall r, In r (peri_violations guest) <->
     In r rows /\ ~ In (VIOLATION_DESC r) descs /\ Row.employer_id r = Some "88-0175412").
Proof.
  intro guest. split; [| split].
  - intros a Ha Hid. apply in_aggregates in Ha. destruct Ha as [_ [Hs Hn]].
    rewrite Hid in Hs, Hn. unfold employer_rows in Hs, Hn. fold guest in Hs, Hn.
    rewrite peri_is_group. auto.
  - rewrite aggregate_ids, in_group_keys, peri_is_group. fold guest. split.
    + intros Hnil [r [Hr Hk]].
      assert (Hin : In r (get_group guest "88-0175412")) by (apply in_get_group; auto).
      rewrite Hnil in Hin. destruct Hin.
    + intro Hno. destruct (get_group guest "88-0175412") as [| r l] eqn:E; [reflexivity |].
      exfalso. apply Hno. exists r. apply in_get_group. rewrite E. left. reflexivity.
  - intro r. rewrite peri_is_group, in_get_group. unfold guest, h2_guestworker_violations.
    rewrite filter_In, negb_true_iff, isin_false. tauto.
Qed.

Lemma key_eqb_eq (a b : detail_key) : key_eqb a b = true <-> a = b.
Proof.
  destruct a as [[c1 a1] d1], b as [[c2 a2] d2]. unfold key_eqb.
  rewrite !andb_true_iff, Z.eqb_eq, !String.eqb_eq. split.
  - intros [[H1 H2] H3]. congruence.
  - intro H. injection H as H1 H2 H3. auto.
Qed.

Lemma in_detail_keys (rows : list Row.t) (k : detail_key) :
  In k (detail_keys rows) <-> exists r, In r rows /\ key_of r = k.
Proof.
  unfold detail_keys.
  assert (H : In k (DetailSort.sort (nodup key_dec (map key_of rows))) <->
              In k (nodup key_dec (map key_of rows))).
  { split; apply Permutation_in;
      [apply Permutation_sym |]; apply DetailSort.Permuted_sort. }
  rewrite H, nodup_In, in_map_iff.
  split; intros [r [H1 H2]]; exists r; auto.
Qed.

Lemma filter_all {A} (p : A -> bool) (l : list A) :
  (forall x, In x l -> p x = true) -> filter p l = l.
Proof.
  induction l as [| x l IH]; intro H; simpl; [reflexivity |].
  rewrite (H x (or_introl eq_refl)), IH; [reflexivity |].
  intros y Hy. apply H. right. exact Hy.
Qed.

Lemma length_groups {A K} (f : K -> list A) (ks : list K) :
  list_sum (map (fun k => List.length (f k)) ks) = List.length (flat_map f ks).
Proof.
  induction ks as [| k ks IH]; simpl; [reflexivity |].
  rewrite IH, length_app. reflexivity.
Qed.

Lemma length_key_group (rows : list Row.t) (k : detail_key) :
  List.length (filter (fun r => key_eqb (key_of r) k) rows) =
  count_occ key_dec (map key_of rows) k.
Proof.
  induction rows as [| r rs IH]; [reflexivity |].
  cbn [map filter count_occ].
  destruct (key_dec (key_of r) k) as [E | N];
    destruct (key_eqb (key_of r) k) eqn:Eb.
  - cbn [List.length]. rewrite IH. reflexivity.
  - apply key_eqb_eq in E. congruence.
  - apply key_eqb_eq in Eb. contradiction.
  - exact IH.
Qed.

(** X11. The counts of [groupby([...]).size()] partition the rows: the
    keys are the observed (case, act, description) triples, each once
    and in column-by-column order; each count is the number of rows with
    that triple, so it is at least one; and the counts add up to the
    number of rows. *)
Theorem detail_counts_partition (rows : list Row.t) :
  let counts := size_by_case_act_desc rows in
  NoDup (map fst counts) /\
  Sorted (fun a b => key_leb a b = true) (map fst counts) /\
  (forall k, In k (map fst counts) <-> exists r, In r rows /\ key_of r = k) /\
  (forall k n, In (k, n) counts ->
     n = count_occ key_dec (map key_of rows) k /\ (1 <= n)%nat) /\
  list_sum (map snd counts) = List.length rows.
Proof.
  intro counts.
  assert (Hfst : map fst counts = detail_keys rows).
  { unfold counts, size_by_case_act_desc. rewrite map_map. simpl. apply map_id. }
  pose proof (length_key_group rows) as Hcount.
  rewrite Hfst. split; [| split; [| split; [| split]]].
  - unfold detail_keys. eapply Permutation_NoDup;
      [apply DetailSort.Permuted_sort | apply NoDup_nodup].
  - unfold detail_keys. apply DetailSort.Sorted_sort.
  - apply in_detail_keys.
  - intros k n Hin. unfold counts, size_by_case_act_desc in Hin.
    apply in_map_iff in Hin. destruct Hin as [k' [E Hk]].
    injection E as Ek En. subst k' n.
    change (List.length (filter (fun r => key_eqb (key_of r) k) rows) =
              count_occ key_dec (map key_of rows) k /\
            (1 <= List.length (filter (fun r => key_eqb (key_of r) k) rows))%nat).
    rewrite Hcount. split; [reflexivity |].
    apply in_detail_keys in Hk. destruct Hk as [r [Hr Er]].
    apply (count_occ_In key_dec). apply in_map_iff. exists r. auto.
  - unfold counts, size_by_case_act_desc. rewrite map_map. simpl.
    rewrite (length_groups (fun k => filter (fun r => key_eqb (key_of r) k) rows)).
    assert (Hnd : NoDup (detail_keys rows)).
    { unfold detail_keys. eapply Permutation_NoDup;
        [apply DetailSort.Permuted_sort | apply NoDup_nodup]. }
    assert (Hdis : forall (k k' : detail_key) (r : Row.t),
              key_eqb (key_of r) k = true -> key_eqb (key_of r) k' = true -> k = k').
    { intros k k' r H1 H2. apply key_eqb_eq in H1, H2. congruence. }
    rewrite (Permutation_length
               (groups_partition (fun k r => key_eqb (key_of r) k) Hdis
                                 (detail_keys rows) rows Hnd)).
    rewrite filter_all; [reflexivity |].
    intros r Hr. apply existsb_exists. exists (key_of r). split.
    + apply in_detail_keys. exists r. auto.
    + apply key_eqb_eq. reflexivity.
Qed.

(** ** Every entry of the list excludes something *)

(** X12. When the run returns a table, every entry of the exclusion
    list has removed at least one filtered row. *)
Theorem every_entry_excludes_a_row (descs : list string)
  (_cases : list Case.t) (_employers : list Employer.t) (violations : list Violation.t)
  (table : list Agg.t) :
  run descs _cases _employers violations = inr table ->
  let rows := h2_employee_violations (cases _cases) (employer_basics _employers) violations in
  forall d, In d descs ->
    exists r, In r rows /\ VIOLATION_DESC r = d /\
              ~ In r (h2_guestworker_violations descs rows).
Proof.
  intros Hrun rows d Hd. unfold run, bind in Hrun. fold rows in Hrun.
  destruct (assert_descs_present descs rows) as [e | []] eqn:Ha; [discriminate |].
  pose proof (proj1 (assert_ok_iff _ _) Ha d Hd) as Hin.
  apply in_map_iff in Hin. destruct Hin as [r [Er Hr]].
  exists r. split; [exact Hr |]. split; [exact Er |].
  unfold h2_guestworker_violations. rewrite filter_In, negb_true_iff, isin_false.
  intros [_ Hn]. apply Hn. rewrite Er. exact Hd.
Qed.

(** ** The further properties on the small data set *)

Lemma ex_unqualified_none :
  forall v, In v ex_unqualified -> ~ passes_filter ex_cases v.
Proof.
  intros v Hv Hp. apply h2_mask_spec in Hp.
  destruct Hv as [E | [E | []]]; subst v; vm_compute in Hp; discriminate Hp.
Defined.

Lemma notebook_raises_without_qualifying_rows_witness :
  (forall v, In v ex_unqualified -> ~ passes_filter ex_cases v) /\
  notebook ex_cases ex_employers ex_unqualified = inl (AssertionError []).
Proof.
  split; [exact ex_unqualified_none |].
  exact (notebook_raises_without_qualifying_rows ex_cases ex_employers ex_unqualified
           ex_unqualified_none).
Defined.



(** The cases of the joined rows of the small data set: case 1 is
    repeated in the input, so the rows come sorted by case. *)
Example join_order_example :
  map Violation.CASE_ID (filter (passes_filterb ex_cases) ex_violations) = [1; 2; 2; 3; 4; 1] /\
  map (fun r => Violation.CASE_ID (Row.violation r)) ex_rows = [1; 1; 2; 2; 3; 4].
Proof. split; vm_compute; reflexivity. Qed.

Lemma output_rows_have_a_source_witness :
  run ex_descs ex_cases ex_employers ex_violations = inr [ex_noname; ex_acme] /\
  NoDup (map Agg.employer_id [ex_noname; ex_acme]) /\
  (forall a, In a [ex_noname; ex_acme] ->
     exists v e,
       In v ex_violations /\ passes_filter ex_cases v /\
       ~ In (Violation.VIOLATION_DESC v) ex_descs /\
       In e ex_employers /\
       Employer.CASE_ID e = Violation.CASE_ID v /\
       Employer.employer_id e = Some (Agg.employer_id a)).
Proof.
  split; [reflexivity |].
  exact (output_rows_have_a_source ex_descs ex_cases ex_employers ex_violations
           [ex_noname; ex_acme] eq_refl).
Defined.

Lemma run_order_independent_witness :
  Permutation ex_cases (rev ex_cases) /\
  Permutation ex_employers (rev ex_employers) /\
  Permutation ex_violations (rev ex_violations) /\
  run ex_descs ex_cases ex_employers ex_violations =
  run ex_descs (rev ex_cases) (rev ex_employers) (rev ex_violations).
Proof.
  split; [apply Permutation_rev |]. split; [apply Permutation_rev |].
  split; [apply Permutation_rev |].
  exact (run_order_independent ex_descs _ _ _ _ _ _
           (Permutation_rev ex_cases) (Permutation_rev ex_employers)
           (Permutation_rev ex_violations)).
Defined.

Lemma ex_names_same_spellings :
  forall s, In s (map fillna ex_names) <-> In s (map fillna ex_names').
Proof. intro s. simpl. tauto. Defined.

Lemma names_depend_on_spellings_only_witness :
  (forall s, In s (map fillna ex_names) <-> In s (map fillna ex_names')) /\
  join_unique_strings ex_names = join_unique_strings ex_names'.
Proof.
  split; [exact ex_names_same_spellings |].
  exact (names_depend_on_spellings_only ex_names ex_names' ex_names_same_spellings).
Defined.

Lemma ex_names_has_null : exists x, In x ex_names /\ fillna x = "".
Proof. exists None. split; [right; left; reflexivity | reflexivity]. Defined.

Lemma ex_names_named : named ex_names <> [].
Proof. vm_compute. discriminate. Defined.

Lemma null_name_leads_with_delimiter_witness :
  (exists x, In x ex_names /\ fillna x = "") /\
  named ex_names <> [] /\
  join_unique_strings ex_names = " | " ++ join_unique_strings (named ex_names).
Proof.
  split; [exact ex_names_has_null |]. split; [exact ex_names_named |].
  exact (null_name_leads_with_delimiter ex_names ex_names_has_null ex_names_named).
Defined.

(** The summary of [ex_names], and the counts of the detail cell on the
    rows of the small data set. *)
Example null_name_example :
  join_unique_strings ex_names = " | Acme Inc. | Acme, Inc.".
Proof. vm_compute. reflexivity. Qed.

Example detail_counts_example :
  size_by_case_act_desc (h2_guestworker_violations ex_descs ex_rows) =
  [ ((1, "H2A", rate), 1%nat);
    ((2, "H2A", "09 Illegal charges for housing"), 1%nat);
    ((2, "H2B", rate), 1%nat);
    ((3, "H2A", rate), 1%nat);
    ((4, "H2A", rate), 1%nat) ].
Proof. vm_compute. reflexivity. Qed.

Lemma every_entry_excludes_a_row_witness :
  run ex_descs ex_cases ex_employers ex_violations = inr [ex_noname; ex_acme] /\
  (forall d, In d ex_descs ->
     exists r, In r ex_rows /\ VIOLATION_DESC r = d /\
               ~ In r (h2_guestworker_violations ex_descs ex_rows)).
Proof.
  split; [reflexivity |].
  exact (every_entry_excludes_a_row ex_descs ex_cases ex_employers ex_violations
           [ex_noname; ex_acme] eq_refl).
Defined.
